(** * pressureclamp: the numeric core of [helper_functions.py]

    A shallow embedding of the table transforms of the pressure-clamp
    analysis helpers: [load_file], [baseline_subtract], [sweep_summary],
    [isolate_opening], [ngauss_guesses], [add_scalebars] and the Gaussian
    curves.

    Conventions of the embedding.
    - A float of the program is an exact rational ([Q]); the Gaussian
      curves, which need the exponential, are written over the reals.
      Values that only
      IEEE arithmetic has (a division by zero, the deviation of a single
      sample) are kept apart in [fnum].
    - A pandas table with the columns of the program is a list of records,
      one per line of the table, in the order of the table.
    - A Python exception is a value of [exn]; a function that may raise
      returns a [result].
    - A table that is passed by reference and updated in place lives in a
      [heap]; the functions of module [Ref] take and return locations. *)

From Stdlib Require Import Reals Lra.
From Stdlib Require Import String Ascii.
From Stdlib Require Import List ZArith QArith Qabs Bool Lia Arith.
From Stdlib Require Import Sorting.Sorted Sorting.Permutation.
Import ListNotations.

Local Open Scope Z_scope.
Local Open Scope Q_scope.

(* ------------------------------------------------------------------ *)
(** ** Exceptions *)

Inductive exn : Type :=
| IndexError
| KeyError
| ValueError
| ZeroDivisionError.

Inductive result (A : Type) : Type :=
| Ok (a : A)
| Err (e : exn).

Arguments Ok {A} a.
Arguments Err {A} e.

Definition bind {A B : Type} (m : result A) (k : A -> result B) : result B :=
  match m with
  | Ok a => k a
  | Err e => Err e
  end.

Notation "x <- m ;; k" := (bind m (fun x => k))
  (at level 61, m at next level, right associativity).
Notation "' pat <- m ;; k" := (bind m (fun x => match x with pat => k end))
  (at level 61, pat pattern, m at next level, right associativity).

Definition is_ok {A : Type} (m : result A) : bool :=
  match m with Ok _ => true | Err _ => false end.

(** [mapM f l]: a loop that appends [f x] for each [x], stopping at the
    first exception. *)
Fixpoint mapM {A B : Type} (f : A -> result B) (l : list A) : result (list B) :=
  match l with
  | [] => Ok []
  | a :: t => b <- f a ;; bs <- mapM f t ;; Ok (b :: bs)
  end.

(* ------------------------------------------------------------------ *)
(** ** Numbers *)

Definition Qlt_bool (a b : Q) : bool := negb (Qle_bool b a).

(** A cell of a derived column: a finite value, the square root of a
    finite value (kept symbolic), or one of the IEEE specials. *)
Inductive fnum : Type :=
| Fin (q : Q)
| Root (q : Q)
| PosInf
| NegInf
| NaN.

(** Float division of two finite values: [x / 0] is [nan] for [x = 0] and
    an infinity of the sign of [x] otherwise. *)
Definition fdiv (a b : Q) : fnum :=
  if Qeq_bool b 0 then
    if Qeq_bool a 0 then NaN
    else if Qlt_bool 0 a then PosInf else NegInf
  else Fin (a / b).

Definition Qsum (l : list Q) : Q := fold_left Qplus l 0.

(* ------------------------------------------------------------------ *)
(** ** Tables *)

(** One line of the table built by [load_file]: the columns [index], [ti],
    [i], [tp], [p], the columns [tv] and [v] when the file has them, and
    [sweep]. *)
Record row : Type := mkRow {
  c_index : Q;
  c_ti : Q;
  c_i : Q;
  c_tp : Q;
  c_p : Q;
  c_tv : option Q;
  c_v : option Q;
  c_sweep : Z
}.

Definition DataFrame : Type := list row.

(** [df['i'] = ...] on one line. *)
Definition set_i (r : row) (x : Q) : row :=
  mkRow (c_index r) (c_ti r) x (c_tp r) (c_p r) (c_tv r) (c_v r) (c_sweep r).

(** A window: [window[0]] and [window[1]]. *)
Definition window : Type := (Q * Q)%type.

(** The condition of [df.query('ti >= @window[0] and ti < @window[1]')]. *)
Definition in_window (w : window) (r : row) : bool :=
  Qle_bool (fst w) (c_ti r) && Qlt_bool (c_ti r) (snd w).

Definition query_window (w : window) (df : DataFrame) : DataFrame :=
  filter (in_window w) df.

(** *** groupby *)

(** The keys of a [groupby]: the values of the column, each once, in
    increasing order. *)
Fixpoint insert_key (k : Z) (l : list Z) : list Z :=
  match l with
  | [] => [k]
  | h :: t =>
      if (k <? h)%Z then k :: l
      else if (k =? h)%Z then l
      else h :: insert_key k t
  end.

Definition group_keys (l : list Z) : list Z := fold_right insert_key [] l.

(** A group is never empty: it has a first line. *)
Record group : Type := mkGroup {
  g_name : Z;
  g_head : row;
  g_tail : list row
}.

Definition g_rows (g : group) : list row := g_head g :: g_tail g.

Definition rows_of_sweep (k : Z) (df : DataFrame) : list row :=
  filter (fun r => (c_sweep r =? k)%Z) df.

Definition group_of (df : DataFrame) (k : Z) : list group :=
  match rows_of_sweep k df with
  | [] => []
  | h :: t => [mkGroup k h t]
  end.

(** [df.groupby('sweep')]: the groups in increasing order of the key, the
    lines of a group in the order of the table. *)
Definition groupby_sweep (df : DataFrame) : list group :=
  flat_map (group_of df) (group_keys (map c_sweep df)).

(** *** Aggregates of a group *)

Definition g_col (f : row -> Q) (g : group) : list Q := map f (g_rows g).

Definition mean (h : Q) (t : list Q) : Q :=
  Qsum (h :: t) / inject_Z (Z.of_nat (length (h :: t))).

Definition Qmax (a b : Q) : Q := if Qle_bool a b then b else a.
Definition Qmin (a b : Q) : Q := if Qle_bool a b then a else b.

Definition list_max (h : Q) (t : list Q) : Q := fold_left Qmax t h.
Definition list_min (h : Q) (t : list Q) : Q := fold_left Qmin t h.

Definition g_agg (agg : Q -> list Q -> Q) (f : row -> Q) (g : group) : Q :=
  agg (f (g_head g)) (map f (g_tail g)).

(* ------------------------------------------------------------------ *)
(** ** baseline_subtract *)

(** [baselines]: the mean of [i] per sweep over the lines of the window,
    a series indexed by the sweep. *)
Definition baselines (df : DataFrame) (w : window) : list (Z * Q) :=
  map (fun g => (g_name g, g_agg mean c_i g)) (groupby_sweep (query_window w df)).

(** [baselines[name]]. *)
Fixpoint series_get (s : list (Z * Q)) (name : Z) : result Q :=
  match s with
  | [] => Err KeyError
  | (k, x) :: t => if (k =? name)%Z then Ok x else series_get t name
  end.

(** The loop over [grouped['i']]: one list [group - baselines[name]] per
    sweep. *)
Definition iblsub (df : DataFrame) (w : window) : result (list (list Q)) :=
  mapM (fun g =>
          b <- series_get (baselines df w) (g_name g) ;;
          Ok (map (fun x => x - b) (g_col c_i g)))
       (groupby_sweep df).

(** [df['i'] = flatList]: the values are stored by position; a list of
    another length than the table is refused. *)
Definition assign_i (df : DataFrame) (vals : list Q) : result DataFrame :=
  if (length vals =? length df)%nat
  then Ok (map (fun rx => set_i (fst rx) (snd rx)) (combine df vals))
  else Err ValueError.

(** The table that [baseline_subtract] stores and returns. *)
Definition baseline_subtract (df : DataFrame) (w : window) : result DataFrame :=
  sub <- iblsub df w ;;
  assign_i df (concat sub).

(* ------------------------------------------------------------------ *)
(** ** sweep_summary *)

(** The median of a series: the middle value of the sorted values, the
    mean of the two middle values when their number is even. *)
Fixpoint insert_sorted (x : Q) (l : list Q) : list Q :=
  match l with
  | [] => [x]
  | h :: t => if Qle_bool x h then x :: l else h :: insert_sorted x t
  end.

Definition sort_values (l : list Q) : list Q := fold_right insert_sorted [] l.

Definition median (h : Q) (t : list Q) : Q :=
  let s := sort_values (h :: t) in
  let n := length s in
  if Nat.even n
  then (nth (n / 2 - 1) s h + nth (n / 2) s h) / 2
  else nth (n / 2) s h.

(** The sample standard deviation ([ddof = 1]): [nan] for one sample. *)
Definition std (h : Q) (t : list Q) : fnum :=
  match t with
  | [] => NaN
  | _ :: _ =>
      let m := mean h t in
      Root (Qsum (map (fun x => (x - m) * (x - m)) (h :: t))
            / inject_Z (Z.of_nat (length t)))
  end.

(** An index into an array of [n] cells: Python counts a negative index from
    the end. *)
Definition array_index (n : nat) (j : Z) : result nat :=
  if ((0 <=? j) && (j <? Z.of_nat n))%Z then Ok (Z.to_nat j)
  else if ((- Z.of_nat n <=? j) && (j <? 0))%Z then Ok (Z.to_nat (j + Z.of_nat n))
  else Err IndexError.

Fixpoint list_set {A : Type} (l : list A) (k : nat) (x : A) : list A :=
  match l, k with
  | [], _ => []
  | _ :: t, O => x :: t
  | h :: t, S k' => h :: list_set t k' x
  end.

(** [arr[j] = sel] where [sel] is a selection of a column: the cell takes
    the value of a selection of exactly one element; any other selection
    is refused. *)
Definition setitem (arr : list Q) (j : Z) (sel : list Q) : result (list Q) :=
  k <- array_index (length arr) j ;;
  match sel with
  | [x] => Ok (list_set arr k x)
  | _ => Err ValueError
  end.

(** [grp['i'][grp['ti'] == 250.0]]. *)
Definition at_thalf (g : group) : list Q :=
  map c_i (filter (fun r => Qeq_bool (c_ti r) 250) (g_rows g)).

(** One turn of the loop that fills [i_thalf]:
    [i_thalf[i-1] = grp['i'][grp['ti'] == 250.0]]. *)
Definition thalf_step (acc : result (list Q)) (g : group) : result (list Q) :=
  arr <- acc ;; setitem arr (g_name g - 1) (at_thalf g).

(** The loop that fills [i_thalf], an array of [n] zeros, from the groups
    of the whole table. *)
Definition i_thalf_loop (df : DataFrame) (n : nat) : result (list Q) :=
  fold_left thalf_step (groupby_sweep df) (Ok (repeat 0 n)).

(** A table of summary data: the index (the sweeps) and the columns in the
    order of the dictionary. *)
Record SummaryDf : Type := mkSummary {
  s_index : list Z;
  s_columns : list (string * list fnum)
}.

Fixpoint column (name : string) (cols : list (string * list fnum)) : option (list fnum) :=
  match cols with
  | [] => None
  | (n, c) :: t => if String.eqb n name then Some c else column name t
  end.

(** [s / agg(s)] for a series [s]. *)
Definition normalise (agg : Q -> list Q -> Q) (s : list Q) : list fnum :=
  match s with
  | [] => []
  | h :: t => map (fun x => fdiv x (agg h t)) s
  end.

Definition pressure_column (groups : list group) : list fnum :=
  map (fun g => Fin (Qabs (g_agg median c_p g))) groups.

Definition sweep_summary (df : DataFrame) (w : window) (param : string)
  : result (option SummaryDf) :=
  let subsetDf := query_window w df in
  let groups := groupby_sweep subsetDf in
  i_thalf <- i_thalf_loop df (length groups) ;;
  if String.eqb param "None" then Ok None
  else if String.eqb param "Mean" then
    let iMean := map (g_agg mean c_i) groups in
    Ok (Some (mkSummary (map g_name groups)
      [ ("pressure"%string, pressure_column groups);
        ("mean_i"%string, map Fin iMean);
        ("mean_norm_i"%string, normalise list_max (map Qabs iMean));
        ("stdev_i"%string, map (fun g => std (c_i (g_head g)) (map c_i (g_tail g))) groups) ]))
  else if String.eqb param "Min" then
    let iMin := map (g_agg list_min c_i) groups in
    Ok (Some (mkSummary (map g_name groups)
      [ ("pressure"%string, pressure_column groups);
        ("min_i"%string, map Fin iMin);
        ("min_norm_i"%string, normalise list_min iMin);
        ("i_thalf"%string, map Fin i_thalf);
        ("inactivation"%string,
          map (fun ab => fdiv (fst ab) (snd ab)) (combine i_thalf iMin)) ]))
  else
    let iMax := map (g_agg list_max c_i) groups in
    Ok (Some (mkSummary (map g_name groups)
      [ ("pressure"%string, pressure_column groups);
        ("max_i"%string, map Fin iMax);
        ("max_norm_i"%string, normalise list_max iMax) ])).

(* ------------------------------------------------------------------ *)
(** ** isolate_opening *)

Definition isolate_opening (df : DataFrame) (sweepnum : Z) (w : window) : DataFrame :=
  let subsetDf := rows_of_sweep sweepnum df in
  query_window w subsetDf.

(* ------------------------------------------------------------------ *)
(** ** ngauss_guesses *)

(** [np.argmax]: the position of the first greatest value. *)
Fixpoint argmax_from (best : Q) (besti k : nat) (l : list Q) : nat :=
  match l with
  | [] => besti
  | h :: t =>
      if Qlt_bool best h then argmax_from h k (S k) t
      else argmax_from best besti (S k) t
  end.

Definition argmax (y : list Q) : result nat :=
  match y with
  | [] => Err ValueError
  | h :: t => Ok (argmax_from h 0%nat 1%nat t)
  end.

Definition getitem (l : list Q) (k : nat) : result Q :=
  match nth_error l k with
  | Some x => Ok x
  | None => Err IndexError
  end.

Definition guesses : Type := (list Q * list Q * list Q)%type.

(** One turn of the loop of [ngauss_guesses], for the loop variable [i]. *)
Definition guess_step (st : result guesses) (i : nat) : result guesses :=
  '(p, u, s) <- st ;;
  pi <- getitem p i ;;
  let p := p ++ [(1 # 2) * pi] in
  ui <- getitem u i ;;
  let u := u ++ [- (22 # 10) * inject_Z (Z.of_nat i + 1) + ui] in
  si <- getitem s i ;;
  let s := s ++ [2 * si] in
  Ok (p, u, s).

Definition ngauss_guesses (x y : list Q) (nGauss : Z) : result guesses :=
  k <- argmax y ;;
  u0 <- getitem x k ;;
  fold_left guess_step (seq 0 (Z.to_nat (nGauss - 1))) (Ok ([1], [u0], [1 # 2])).

(* ------------------------------------------------------------------ *)
(** ** load_file *)

(** *** Text *)

Definition is_lower (c : ascii) : bool :=
  let n := nat_of_ascii c in ((97 <=? n) && (n <=? 122))%nat.

(** The blanks that [str.strip] removes. *)
Definition is_space (c : ascii) : bool :=
  let n := nat_of_ascii c in
  (((9 <=? n) && (n <=? 13)) || ((28 <=? n) && (n <=? 32)))%nat.

Fixpoint lstrip (s : string) : string :=
  match s with
  | EmptyString => EmptyString
  | String c t => if is_space c then lstrip t else s
  end.

Definition rev_string (s : string) : string :=
  string_of_list_ascii (rev (list_ascii_of_string s)).

Definition rstrip (s : string) : string := rev_string (lstrip (rev_string s)).

Definition strip (s : string) : string := rstrip (lstrip s).

(** [s.split(sep)] for a separator of one character. *)
Fixpoint split (sep : ascii) (s : string) : list string :=
  match s with
  | EmptyString => [EmptyString]
  | String c t =>
      if Ascii.eqb c sep then EmptyString :: split sep t
      else match split sep t with
           | h :: r => String c h :: r
           | [] => [String c EmptyString]
           end
  end.

(** [s.replace(" ", "")]. *)
Fixpoint remove_spaces (s : string) : string :=
  match s with
  | EmptyString => EmptyString
  | String c t =>
      if Ascii.eqb c " " then remove_spaces t else String c (remove_spaces t)
  end.

(** [re.search(r"[a-z]+", line) != None]. *)
Fixpoint has_lower (s : string) : bool :=
  match s with
  | EmptyString => false
  | String c t => is_lower c || has_lower t
  end.

Definition newline : ascii := ascii_of_nat 10.

(** The loop that collects [lineIndices]: the positions of the lines
    without a lowercase letter, [count] being the position of the first
    line of [lines]. *)
Fixpoint scan_lines (lines : list string) (count : nat) : list nat :=
  match lines with
  | [] => []
  | line :: rest =>
      if has_lower line then scan_lines rest (S count)
      else count :: scan_lines rest (S count)
  end.

Definition rawFile_of (content : string) : list string :=
  split newline (strip content).

Definition lineIndices_of (rawFile : list string) : list nat :=
  scan_lines rawFile 0.

(** [line.strip().replace(" ", "").split(",")]. *)
Definition fields (line : string) : list string :=
  split "," (remove_spaces (strip line)).

Definition processedFile_of (rawFile : list string) : list (list string) :=
  map (fun i => fields (nth i rawFile EmptyString)) (lineIndices_of rawFile).

(** [int((len(rawFile) - len(processedFile) - 1) / 2)]: the quotient is
    cut towards zero. *)
Definition nSweeps_of (rawFile : list string) : Z :=
  Z.quot (Z.of_nat (length rawFile)
          - Z.of_nat (length (processedFile_of rawFile)) - 1) 2.

(** *** The table of numbers *)

(** [pd.DataFrame(columns=colnames, data=processedFile)]: a short line is
    filled with missing cells; the widest line must have as many fields as
    there are column names. *)
Definition pad_line (ncols : nat) (l : list string) : list (option string) :=
  map Some l ++ repeat None (ncols - length l).

Definition frame_of_lines (ncols : nat) (data : list (list string))
  : result (list (list (option string))) :=
  let width := fold_right Nat.max 0%nat (map (@length string) data) in
  if (width =? ncols)%nat then Ok (map (pad_line ncols) data)
  else Err ValueError.

(** [df.dropna(axis=0)]: the lines with a missing value are removed. *)
Fixpoint all_present (l : list (option Q)) : option (list Q) :=
  match l with
  | [] => Some []
  | None :: _ => None
  | Some q :: t =>
      match all_present t with
      | Some qs => Some (q :: qs)
      | None => None
      end
  end.

Fixpoint dropna (t : list (list (option Q))) : list (list Q) :=
  match t with
  | [] => []
  | l :: rest =>
      match all_present l with
      | Some qs => qs :: dropna rest
      | None => dropna rest
      end
  end.

(** [np.repeat(np.arange(nSweeps) + 1, len(df) / nSweeps)]: the number of
    repeats, a float, is cut to an integer. *)
Definition sweep_labels (nSweeps : Z) (len : nat) : result (list Z) :=
  if (nSweeps =? 0)%Z then Err ZeroDivisionError
  else
    let reps := Z.to_nat (Z.quot (Z.of_nat len) nSweeps) in
    Ok (flat_map (fun k => repeat (Z.of_nat k + 1)%Z reps)
                 (seq 0 (Z.to_nat nSweeps))).

(** A line of the table under the column names chosen for its width. *)
Definition line_of (vs : list Q * Z) : result row :=
  match vs with
  | ([a; b; c; d; e], sw) => Ok (mkRow a b c d e None None sw)
  | ([a; b; c; d; e; f; g], sw) => Ok (mkRow a b c d e (Some f) (Some g) sw)
  | _ => Err ValueError
  end.

(** The change of units at the end of [load_file]. *)
Definition convert_units (r : row) : row :=
  mkRow (c_index r)
        (c_ti r * 1000)
        (c_i r * 1000000000000)
        (c_tp r * 1000)
        (c_p r / (2 # 100))
        (c_tv r) (c_v r) (c_sweep r).

Section Loader.

(** The conversion of the text of one cell to a float, as the library
    does it: [None] when the text is not a number. *)
Variable str_to_float : string -> option Q.

(** [pd.to_numeric] on one cell: a missing or empty cell is [nan]. *)
Definition to_numeric (c : option string) : result (option Q) :=
  match c with
  | None => Ok None
  | Some s =>
      if String.eqb s EmptyString then Ok None
      else match str_to_float s with
           | Some q => Ok (Some q)
           | None => Err ValueError
           end
  end.

(** The table after [dropna], before the sweeps and the units. *)
Definition numeric_table (rawFile : list string) : result (list (list Q)) :=
  let processedFile := processedFile_of rawFile in
  first <- match processedFile with
           | [] => Err IndexError
           | l :: _ => Ok l
           end ;;
  let ncols := if (length first =? 5)%nat then 5%nat else 7%nat in
  cells <- frame_of_lines ncols processedFile ;;
  nums <- mapM (mapM to_numeric) cells ;;
  Ok (dropna nums).

(** [df['sweep'] = ...]: the labels are stored by position and must be as
    many as the lines. *)
Definition with_sweeps (t : list (list Q)) (nSweeps : Z) : result DataFrame :=
  labels <- sweep_labels nSweeps (length t) ;;
  if (length labels =? length t)%nat
  then mapM line_of (combine t labels)
  else Err ValueError.

Definition load_file (content : string) : result DataFrame :=
  let rawFile := rawFile_of content in
  let nSweeps := nSweeps_of rawFile in
  t <- numeric_table rawFile ;;
  df <- with_sweeps t nSweeps ;;
  Ok (map convert_units df).

End Loader.

(** A reader of plain decimal numbers ([-12.5], [300]), one possible
    [str_to_float]. *)
Definition digit_of (c : ascii) : option Z :=
  let n := nat_of_ascii c in
  if ((48 <=? n) && (n <=? 57))%nat then Some (Z.of_nat (n - 48)) else None.

Fixpoint read_digits (s : string) (acc : Z) (scale : positive) (frac : bool)
  : option (Z * positive) :=
  match s with
  | EmptyString => Some (acc, scale)
  | String c t =>
      if Ascii.eqb c "." then
        if frac then None else read_digits t acc scale true
      else match digit_of c with
           | Some d =>
               read_digits t (10 * acc + d)%Z
                           (if frac then (10 * scale)%positive else scale) frac
           | None => None
           end
  end.

Definition read_decimal (s : string) : option Q :=
  match s with
  | EmptyString => None
  | String c t =>
      if Ascii.eqb c "-" then
        match t with
        | EmptyString => None
        | _ => option_map (fun ns => Qmake (- fst ns) (snd ns)) (read_digits t 0%Z 1%positive false)
        end
      else option_map (fun ns => Qmake (fst ns) (snd ns)) (read_digits s 0%Z 1%positive false)
  end.

(* ------------------------------------------------------------------ *)
(** ** Tables passed by reference *)

Module Ref.

Definition loc : Type := nat.
Definition heap : Type := list DataFrame.

(** A call: it may raise, and it leaves a heap behind in either case. *)
Definition M (A : Type) : Type := heap -> result A * heap.

Definition read (l : loc) : M DataFrame :=
  fun h => match nth_error h l with
           | Some df => (Ok df, h)
           | None => (Err KeyError, h)
           end.

Definition write (l : loc) (df : DataFrame) : M unit :=
  fun h => (Ok tt, list_set h l df).

Definition alloc (df : DataFrame) : M loc :=
  fun h => (Ok (length h), h ++ [df]).

Definition ret {A : Type} (a : A) : M A := fun h => (Ok a, h).

Definition lift {A : Type} (r : result A) : M A := fun h => (r, h).

Definition mbind {A B : Type} (m : M A) (k : A -> M B) : M B :=
  fun h => match m h with
           | (Ok a, h') => k a h'
           | (Err e, h') => (Err e, h')
           end.

Notation "x <~ m ;; k" := (mbind m (fun x => k))
  (at level 61, m at next level, right associativity).

(** [baseline_subtract(df, window)]: the column [i] of the table [df]
    itself is replaced, and [df] is returned. *)
Definition baseline_subtract (df : loc) (w : window) : M loc :=
  t <~ read df ;;
  t' <~ lift (baseline_subtract t w) ;;
  _ <~ write df t' ;;
  ret df.

(** [sweep_summary] reads [df] and builds a new table. *)
Definition sweep_summary (df : loc) (w : window) (param : string)
  : M (option SummaryDf) :=
  t <~ read df ;;
  lift (sweep_summary t w param).

(** [isolate_opening] returns the result of a query, a new table. *)
Definition isolate_opening (df : loc) (sweepnum : Z) (w : window) : M loc :=
  t <~ read df ;;
  alloc (isolate_opening t sweepnum w).

(** [load_file] builds a new table from the text of a file. *)
Definition load_file (str_to_float : string -> option Q) (content : string)
  : M loc :=
  t <~ lift (load_file str_to_float content) ;;
  alloc t.

(** [ngauss_guesses] works on arrays of numbers and holds no table. *)
Definition ngauss_guesses (x y : list Q) (nGauss : Z) : M guesses :=
  lift (ngauss_guesses x y nGauss).

End Ref.

(* ------------------------------------------------------------------ *)
(** ** The Gaussian curves *)

(** [norm.pdf(x, loc, scale)] of the statistics library, for a positive
    [scale]: the density of the normal law. *)
Definition norm_pdf (x loc scale : R) : R :=
  (exp (- (((x - loc) / scale) * ((x - loc) / scale)) / 2) / sqrt (2 * PI) / scale)%R.

Definition single_gauss_fit (x a1 m1 s1 : R) : R :=
  (a1 * norm_pdf x m1 s1)%R.

Definition double_gauss_fit (x a1 a2 m1 m2 s1 s2 : R) : R :=
  let gauss := (a1 * norm_pdf x m1 s1)%R in
  (gauss + a2 * norm_pdf x m2 s2)%R.

Definition triple_gauss_fit (x a1 a2 a3 m1 m2 m3 s1 s2 s3 : R) : R :=
  let gauss := (a1 * norm_pdf x m1 s1)%R in
  let gauss := (gauss + a2 * norm_pdf x m2 s2)%R in
  (gauss + a3 * norm_pdf x m3 s3)%R.

(** The curve of one component drawn by [frequency_histogram]:
    [single_gauss_fit(xfine, *popt[[i, j, k]])]. *)
Definition gauss_component (popt : list R) (i j k : nat) (x : R) : R :=
  single_gauss_fit x (nth i popt 0%R) (nth j popt 0%R) (nth k popt 0%R).

(* ------------------------------------------------------------------ *)
(** ** add_scalebars *)

(** A line drawn on a figure ([type="line"], black, of width 2) and the
    row of the figure that holds it (the column is always 1). *)
Record shape : Type := mkLine {
  sh_x0 : Q;
  sh_x1 : Q;
  sh_y0 : Q;
  sh_y1 : Q
}.

(** The shapes of a figure, in the order in which they were added. *)
Definition figure : Type := list (shape * nat).

(** [locs]: a dictionary from axis names to scale bar limits. *)
Definition dict : Type := list (string * list Q).

Fixpoint dict_get (d : dict) (key : string) : result (list Q) :=
  match d with
  | [] => Err KeyError
  | (k, vals) :: t => if String.eqb k key then Ok vals else dict_get t key
  end.

(** [all(value == 0 for value in vals)]. *)
Definition all_zero (vals : list Q) : bool :=
  forallb (fun value => Qeq_bool value 0) vals.

(** The three dictionaries [pscale], [iscale] and [tscale], their entries
    read in the order in which they are written. *)
Definition pscale (locs : dict) : result shape :=
  t <- dict_get locs "t" ;; a <- getitem t 0 ;;
  t' <- dict_get locs "t" ;; b <- getitem t' 0 ;;
  p <- dict_get locs "p" ;; c <- getitem p 0 ;;
  p' <- dict_get locs "p" ;; d <- getitem p' 1 ;;
  Ok (mkLine a b c d).

Definition iscale (locs : dict) : result shape :=
  t <- dict_get locs "t" ;; a <- getitem t 0 ;;
  t' <- dict_get locs "t" ;; b <- getitem t' 0 ;;
  i <- dict_get locs "i" ;; c <- getitem i 0 ;;
  i' <- dict_get locs "i" ;; d <- getitem i' 1 ;;
  Ok (mkLine a b c d).

Definition tscale (locs : dict) : result shape :=
  t <- dict_get locs "t" ;; a <- getitem t 0 ;;
  t' <- dict_get locs "t" ;; b <- getitem t' 1 ;;
  i <- dict_get locs "i" ;; c <- getitem i 0 ;;
  i' <- dict_get locs "i" ;; d <- getitem i' 0 ;;
  Ok (mkLine a b c d).

(** One [if all(...) == False: ... fig.add_shape(...)]. *)
Definition scale_step (locs : dict) (key : string) (bar : dict -> result shape)
           (row : nat) (fig : figure) : result figure :=
  vals <- dict_get locs key ;;
  if negb (all_zero vals)
  then s <- bar locs ;; Ok (fig ++ [(s, row)])
  else Ok fig.

(** How a call ends: it returns, it returns after the message of the
    handler of [KeyError], or it raises. *)
Inductive outcome : Type :=
| Returned
| Printed
| Raised (e : exn).

Definition handler (e : exn) : outcome :=
  match e with
  | KeyError => Printed
  | _ => Raised e
  end.

(** The figure after the call (shapes added before an exception stay) and
    the way the call ended.  [fig.add_shape] appends the shape: the figure
    is taken to have the rows that are named.  The values of [locs] are
    lists of numbers, so the [TypeError] that the handler also catches
    does not arise. *)
Definition add_scalebars (fig : figure) (locs : dict) : figure * outcome :=
  match scale_step locs "p" pscale 1 fig with
  | Err e => (fig, handler e)
  | Ok fig1 =>
      match scale_step locs "i" iscale 2 fig1 with
      | Err e => (fig1, handler e)
      | Ok fig2 =>
          match scale_step locs "t" tscale 2 fig2 with
          | Err e => (fig2, handler e)
          | Ok fig3 => (fig3, Returned)
          end
      end
  end.

(* ------------------------------------------------------------------ *)
(** ** The properties, as definitions *)

(** *** Baseline correction *)

Definition list_mean (l : list Q) : Q :=
  Qsum l / inject_Z (Z.of_nat (length l)).

(** The lines of sweep [k] whose time lies in the window. *)
Definition window_rows (df : DataFrame) (w : window) (k : Z) : list row :=
  filter (fun r => (c_sweep r =? k)%Z && in_window w r) df.

Definition window_mean (df : DataFrame) (w : window) (k : Z) : Q :=
  list_mean (map c_i (window_rows df w k)).

(** Every line keeps its place and loses the mean of its sweep. *)
Definition baseline_subtracted (df : DataFrame) (w : window) : DataFrame :=
  map (fun r => set_i r (c_i r - window_mean df w (c_sweep r))) df.

Definition baseline_rows_ok (df : DataFrame) (w : window) (df' : DataFrame) : Prop :=
  Forall2 (fun r r' => c_i r' == c_i r - window_mean df w (c_sweep r)) df df'.

Definition every_sweep_in_window (df : DataFrame) (w : window) : bool :=
  forallb (fun r =>
             existsb (fun r' => (c_sweep r' =? c_sweep r)%Z && in_window w r') df)
          df.

(** The sweeps never decrease down the table, as in a table of
    [load_file]. *)
Fixpoint ascending (l : list Z) : bool :=
  match l with
  | [] => true
  | a :: t =>
      match t with
      | [] => true
      | b :: _ => (a <=? b)%Z && ascending t
      end
  end.

Definition sweeps_ascending (df : DataFrame) : bool := ascending (map c_sweep df).

(** A short line of a table, for examples. *)
Definition sample (sw : Z) (t x pr : Q) : row := mkRow 0 t x 0 pr None None sw.

Definition interleaved : DataFrame :=
  [sample 2 0 10 1; sample 1 0 20 1; sample 1 0 40 1].

(** *** Summaries *)

(** The cell of a column for the sweep [k] of the index. *)
Fixpoint cell_at (idx : list Z) (col : list fnum) (k : Z) : option fnum :=
  match idx, col with
  | i :: it, c :: ct => if (i =? k)%Z then Some c else cell_at it ct k
  | _, _ => None
  end.

Definition summary_cell (s : SummaryDf) (name : string) (k : Z) : option fnum :=
  match column name (s_columns s) with
  | Some c => cell_at (s_index s) c k
  | None => None
  end.

(** A statistic of a column over the lines of sweep [k] inside the window;
    nothing when the sweep has no line there. *)
Definition window_stat (agg : Q -> list Q -> Q) (f : row -> Q)
           (df : DataFrame) (w : window) (k : Z) : option Q :=
  match map f (window_rows df w k) with
  | [] => None
  | h :: t => Some (agg h t)
  end.

(** The first group of a name. *)
Fixpoint group_lookup (gs : list group) (k : Z) : option group :=
  match gs with
  | [] => None
  | g :: t => if (g_name g =? k)%Z then Some g else group_lookup t k
  end.

(** [w0 <= ti < w1]. *)
Definition half_open (w : window) (r : row) : Prop :=
  fst w <= c_ti r /\ c_ti r < snd w.

(** The samples of sweep [k] at [ti == 250.0], in the whole table. *)
Definition thalf_rows (df : DataFrame) (k : Z) : list row :=
  filter (fun r => (c_sweep r =? k)%Z && Qeq_bool (c_ti r) 250) df.

Definition one_thalf_per_sweep (df : DataFrame) : bool :=
  forallb (fun r => (length (thalf_rows df (c_sweep r)) =? 1)%nat) df.

(** The sweeps that have a line in the window. *)
Definition sweeps_in_window (df : DataFrame) (w : window) : list Z :=
  group_keys (map c_sweep (query_window w df)).

(** Every sweep of the table is numbered from 1 to the number of sweeps
    that have a line in the window. *)
Definition labels_fit (df : DataFrame) (w : window) : bool :=
  forallb (fun r => ((1 <=? c_sweep r)
                     && (c_sweep r <=? Z.of_nat (length (sweeps_in_window df w))))%Z)
          df.

(** Three samples of one sweep under suction (negative [p]). *)
Definition suction : DataFrame :=
  [sample 1 0 3 (-10); sample 1 250 5 (-20); sample 1 300 4 (-30)].

(** Two sweeps with one sample each at 250. *)
Definition two_sweeps : DataFrame :=
  [sample 1 0 (-3) (-10); sample 1 250 (-1) (-10);
   sample 2 0 (-8) (-20); sample 2 250 (-2) (-20)].

(** *** Guesses *)

(** [k] is the position of the first greatest value of [y]. *)
Definition first_max (y : list Q) (k : nat) : Prop :=
  (k < length y)%nat
  /\ (forall j, (j < length y)%nat -> nth j y 0 <= nth k y 0)
  /\ (forall j, (j < k)%nat -> nth j y 0 < nth k y 0).

(** The recurrences of the three arrays, up to the position [m]. *)
Definition guesses_recur (m : nat) (g : guesses) : Prop :=
  let '(p, u, s) := g in
  forall i, (i < m)%nat ->
    nth (S i) p 0 == (1 # 2) * nth i p 0
    /\ nth (S i) u 0 == nth i u 0 - (22 # 10) * inject_Z (Z.of_nat i + 1)
    /\ nth (S i) s 0 == 2 * nth i s 0.

Definition guesses_start (u0 : Q) (g : guesses) : Prop :=
  let '(p, u, s) := g in
  nth_error p 0 = Some 1 /\ nth_error u 0 = Some u0 /\ nth_error s 0 = Some (1 # 2).

Definition guesses_length (n : nat) (g : guesses) : Prop :=
  let '(p, u, s) := g in length p = n /\ length u = n /\ length s = n.

(** *** Files *)

(** The lines of a file that hold no lowercase letter, and the number of
    the others (the header lines). *)
Definition data_lines (rawFile : list string) : list string :=
  filter (fun l => negb (has_lower l)) rawFile.

Definition header_count (rawFile : list string) : nat :=
  length (filter has_lower rawFile).

(** The sweep of the line [j] when the sweeps come in blocks of [m] lines. *)
Definition block_label (m j : nat) : Z := (Z.of_nat (j / m) + 1)%Z.

(** The line [r] of the table holds the values [vals] of a line of the
    file, in the units of the table. *)
Definition converted (vals : list Q) (r : row) : Prop :=
  c_index r = nth 0 vals 0
  /\ c_ti r = nth 1 vals 0 * 1000
  /\ c_i r = nth 2 vals 0 * 1000000000000
  /\ c_tp r = nth 3 vals 0 * 1000
  /\ c_p r = nth 4 vals 0 / (2 # 100)
  /\ c_tv r = nth_error vals 5
  /\ c_v r = nth_error vals 6.

(** The values [vals] are the numbers written in the fields of [line]. *)
Definition values_of_line (parse : string -> option Q) (line : string)
           (vals : list Q) : Prop :=
  Forall2 (fun field x => parse field = Some x) (fields line) vals.

(** A line with [n] fields, none of them empty. *)
Definition complete_line (n : nat) (l : list string) : bool :=
  (length l =? n)%nat && forallb (fun f => negb (String.eqb f EmptyString)) l.

(** The numbers written in the fields of a line: nothing when a field is
    not a number. *)
Fixpoint parse_all (parse : string -> option Q) (l : list string)
  : option (list Q) :=
  match l with
  | [] => Some []
  | f :: t =>
      match parse f, parse_all parse t with
      | Some x, Some xs => Some (x :: xs)
      | _, _ => None
      end
  end.

(** The number of columns that the first kept line of a file decides. *)
Definition file_width (lines : list string) : nat :=
  match lines with
  | [] => 7%nat
  | l :: _ => if (length (fields l) =? 5)%nat then 5%nat else 7%nat
  end.

(** The values that a file gives to the table, read off its text: every
    kept line with [n] fields, none of them empty, gives one line of
    numbers, in the order of the file; the other kept lines give none. *)
Definition file_row (parse : string -> option Q) (n : nat) (line : string)
  : list (list Q) :=
  if complete_line n (fields line)
  then match parse_all parse (fields line) with
       | Some vals => [vals]
       | None => []
       end
  else [].

Definition file_values (parse : string -> option Q) (n : nat)
           (lines : list string) : list (list Q) :=
  flat_map (file_row parse n) lines.

(** A file of two sweeps of two samples. *)
Definition two_sweep_file : string :=
  String.concat (String newline EmptyString)
    ["Series_1_1"; "Sweep_1_1_1"; "Index, Time, Imon, Time, Pressure";
     "0, 0.0, -2, 0.0, -0.5"; "1, 0.25, -4, 0.25, -0.5";
     "Sweep_1_2_1"; "Index, Time, Imon, Time, Pressure";
     "0, 0.0, -6, 0.0, -1"; "1, 0.25, -8, 0.25, -1"; ""]%string.

(** *** Windows *)

(** The column of the statistic in the table of [sweep_summary], and the
    statistic, for a [param] other than ['None']. *)
Definition stat_name (param : string) : string :=
  if String.eqb param "Mean" then "mean_i"%string
  else if String.eqb param "Min" then "min_i"%string
  else "max_i"%string.

Definition stat_agg (param : string) : Q -> list Q -> Q :=
  if String.eqb param "Mean" then mean
  else if String.eqb param "Min" then list_min
  else list_max.

(** One sweep with a sample at each end of the window [(0, 250)]. *)
Definition boundary_table : DataFrame :=
  [sample 1 0 3 (-10); sample 1 250 9 (-10)].

(** *** Further notions *)

(** The table regrouped by sweep: the sweeps in increasing order, the
    lines of a sweep in the order of the table. *)
Definition sweep_sorted (df : DataFrame) : DataFrame :=
  flat_map (fun k => rows_of_sweep k df) (group_keys (map c_sweep df)).

(** A cell holds a finite value that satisfies [P]. *)
Definition finite_cell (P : Q -> Prop) (c : fnum) : Prop :=
  exists q, c = Fin q /\ P q.

(** The line added for an entry of [locs], if any. *)
Definition bar_if (vals : list Q) (s : shape) (row : nat) : figure :=
  if all_zero vals then [] else [(s, row)].

(** The character [c] occurs in [s]. *)
Fixpoint has_char (c : ascii) (s : string) : bool :=
  match s with
  | EmptyString => false
  | String a t => Ascii.eqb a c || has_char c t
  end.

(* ================================================================== *)
(** * Properties *)

(** ** Generic facts *)

Lemma Qlt_bool_iff (a b : Q) : Qlt_bool a b = true <-> a < b.
Proof.
  unfold Qlt_bool. rewrite negb_true_iff.
  split; intro H.
  - apply Qnot_le_lt. intro Hle. apply Qle_bool_iff in Hle. congruence.
  - destruct (Qle_bool b a) eqn:E; [|reflexivity].
    apply Qle_bool_iff in E. exfalso. exact (Qlt_not_le _ _ H E).
Qed.

Lemma mapM_ok {A B : Type} (f : A -> result B) (g : A -> B) (l : list A) :
  (forall a, In a l -> f a = Ok (g a)) -> mapM f l = Ok (map g l).
Proof.
  induction l as [|a t IH]; intro H; simpl; [reflexivity|].
  rewrite (H a (or_introl eq_refl)); simpl.
  rewrite IH; [reflexivity|]. intros b Hb. apply H. now right.
Qed.

(** ** groupby *)

Lemma insert_key_In (k x : Z) (l : list Z) :
  In x (insert_key k l) <-> x = k \/ In x l.
Proof.
  induction l as [|h t IH]; simpl.
  - intuition.
  - destruct (k <? h)%Z eqn:E1; simpl; [intuition|].
    destruct (k =? h)%Z eqn:E2; simpl.
    + apply Z.eqb_eq in E2. subst. intuition.
    + rewrite IH. intuition.
Qed.

Lemma group_keys_In (x : Z) (l : list Z) : In x (group_keys l) <-> In x l.
Proof.
  induction l as [|h t IH]; simpl; [tauto|].
  rewrite insert_key_In, IH. intuition.
Qed.

Lemma insert_key_sorted (k : Z) (l : list Z) :
  StronglySorted Z.lt l -> StronglySorted Z.lt (insert_key k l).
Proof.
  induction 1 as [|h t Hs IH Hall]; simpl.
  - constructor; constructor.
  - destruct (k <? h)%Z eqn:E1.
    + apply Z.ltb_lt in E1. constructor.
      * now constructor.
      * constructor; [exact E1|].
        eapply Forall_impl; [|exact Hall]. intros; lia.
    + destruct (k =? h)%Z eqn:E2.
      * now constructor.
      * apply Z.ltb_ge in E1. apply Z.eqb_neq in E2.
        constructor; [exact IH|].
        apply Forall_forall. intros x Hx.
        apply (proj1 (insert_key_In _ _ _)) in Hx. destruct Hx as [->|Hx]; [lia|].
        rewrite Forall_forall in Hall. now apply Hall.
Qed.

Lemma group_keys_sorted (l : list Z) : StronglySorted Z.lt (group_keys l).
Proof.
  induction l; simpl; [constructor|now apply insert_key_sorted].
Qed.

Lemma ascending_cons (a : Z) (l : list Z) :
  ascending (a :: l) = true -> Forall (Z.le a) l /\ ascending l = true.
Proof.
  revert a. induction l as [|b t IH]; intros a H.
  - split; [constructor|reflexivity].
  - simpl in H. apply andb_true_iff in H. destruct H as [Hab Ht].
    apply Z.leb_le in Hab. split; [|exact Ht].
    constructor; [exact Hab|].
    destruct (IH b Ht) as [Hall _].
    eapply Forall_impl; [|exact Hall]. intros; lia.
Qed.

Lemma rows_of_sweep_none (k : Z) (df : DataFrame) :
  ~ In k (map c_sweep df) -> rows_of_sweep k df = [].
Proof.
  induction df as [|r t IH]; simpl; intro H; [reflexivity|].
  destruct (c_sweep r =? k)%Z eqn:E.
  - apply Z.eqb_eq in E. tauto.
  - apply IH. tauto.
Qed.

Lemma rows_of_sweep_In (k : Z) (df : DataFrame) (r : row) :
  In r (rows_of_sweep k df) <-> In r df /\ c_sweep r = k.
Proof.
  unfold rows_of_sweep. rewrite filter_In, Z.eqb_eq. tauto.
Qed.

Lemma group_of_rows (df : DataFrame) (k : Z) :
  concat (map g_rows (group_of df k)) = rows_of_sweep k df.
Proof.
  unfold group_of. destruct (rows_of_sweep k df); simpl; [reflexivity|].
  unfold g_rows; simpl. now rewrite app_nil_r.
Qed.

Lemma groups_rows (df : DataFrame) (ks : list Z) :
  concat (map g_rows (flat_map (group_of df) ks))
  = flat_map (fun k => rows_of_sweep k df) ks.
Proof.
  induction ks as [|k t IH]; simpl; [reflexivity|].
  now rewrite map_app, concat_app, group_of_rows, IH.
Qed.

Lemma group_of_name (df : DataFrame) (k : Z) (g : group) :
  In g (group_of df k) -> g_name g = k /\ g_rows g = rows_of_sweep k df.
Proof.
  unfold group_of. destruct (rows_of_sweep k df) eqn:E; simpl; [tauto|].
  intros [<-|[]]. now split.
Qed.

Lemma groupby_sweep_In (df : DataFrame) (g : group) :
  In g (groupby_sweep df) ->
  g_rows g = rows_of_sweep (g_name g) df.
Proof.
  unfold groupby_sweep. rewrite in_flat_map. intros (k & _ & Hg).
  apply group_of_name in Hg. destruct Hg as [-> Hr]. exact Hr.
Qed.

Lemma group_row_sweep (df : DataFrame) (g : group) (r : row) :
  In g (groupby_sweep df) -> In r (g_rows g) -> In r df /\ c_sweep r = g_name g.
Proof.
  intros Hg Hr. rewrite (groupby_sweep_In _ _ Hg) in Hr.
  now apply rows_of_sweep_In in Hr.
Qed.

Lemma rows_of_sweep_cons_eq (r : row) (df : DataFrame) :
  rows_of_sweep (c_sweep r) (r :: df) = r :: rows_of_sweep (c_sweep r) df.
Proof. unfold rows_of_sweep. simpl. now rewrite Z.eqb_refl. Qed.

Lemma rows_of_sweep_cons_neq (r : row) (df : DataFrame) (k : Z) :
  c_sweep r <> k -> rows_of_sweep k (r :: df) = rows_of_sweep k df.
Proof.
  intro H. unfold rows_of_sweep. simpl.
  destruct (c_sweep r =? k)%Z eqn:E; [|reflexivity].
  apply Z.eqb_eq in E. contradiction.
Qed.

Lemma flat_map_rows_skip (r : row) (df : DataFrame) (ks : list Z) :
  ~ In (c_sweep r) ks ->
  flat_map (fun k => rows_of_sweep k (r :: df)) ks
  = flat_map (fun k => rows_of_sweep k df) ks.
Proof.
  induction ks as [|k t IH]; intro H; [reflexivity|].
  cbn [flat_map]. rewrite rows_of_sweep_cons_neq.
  - rewrite IH; [reflexivity|]. intro Hin. apply H. now right.
  - intro E. apply H. now left.
Qed.

(** The groups of a table whose sweeps never decrease are its lines, in
    the order of the table. *)
Lemma groups_of_ascending (df : DataFrame) :
  sweeps_ascending df = true ->
  flat_map (fun k => rows_of_sweep k df) (group_keys (map c_sweep df)) = df.
Proof.
  unfold sweeps_ascending.
  induction df as [|r t IH]; intro Hasc; [reflexivity|].
  change (map c_sweep (r :: t)) with (c_sweep r :: map c_sweep t) in *.
  apply ascending_cons in Hasc. destruct Hasc as [Hle Hasc].
  specialize (IH Hasc).
  pose proof (group_keys_sorted (map c_sweep t)) as Hs.
  assert (Hge : Forall (Z.le (c_sweep r)) (group_keys (map c_sweep t))).
  { apply Forall_forall. intros x Hx. apply (proj1 (group_keys_In _ _)) in Hx.
    rewrite Forall_forall in Hle. now apply Hle. }
  assert (Hkeys : forall x, In x (map c_sweep t) -> In x (group_keys (map c_sweep t))).
  { intros x Hx. now apply (proj2 (group_keys_In _ _)). }
  change (group_keys (c_sweep r :: map c_sweep t))
    with (insert_key (c_sweep r) (group_keys (map c_sweep t))).
  destruct (group_keys (map c_sweep t)) as [|h ks].
  - cbn [flat_map] in IH. subst t. cbn [insert_key flat_map].
    now rewrite rows_of_sweep_cons_eq, app_nil_r.
  - cbn [insert_key].
    inversion Hge as [|? ? Hh Hks]; subst.
    inversion Hs as [|? ? Hs' Hlt]; subst.
    rewrite Forall_forall in Hlt.
    cbn [flat_map] in IH.
    destruct (c_sweep r <? h)%Z eqn:E1.
    + apply Z.ltb_lt in E1.
      assert (Hno : ~ In (c_sweep r) (h :: ks)).
      { intros [->|Hin]; [lia|]. specialize (Hlt _ Hin). lia. }
      cbn [flat_map].
      rewrite rows_of_sweep_cons_eq, rows_of_sweep_cons_neq by lia.
      rewrite flat_map_rows_skip by (intro Hin; apply Hno; now right).
      rewrite IH.
      rewrite (rows_of_sweep_none (c_sweep r) t); [reflexivity|].
      intro Hin. exact (Hno (Hkeys _ Hin)).
    + apply Z.ltb_ge in E1. assert (h = c_sweep r) by lia. subst h.
      rewrite Z.eqb_refl.
      assert (Hno : ~ In (c_sweep r) ks).
      { intro Hin. specialize (Hlt _ Hin). lia. }
      cbn [flat_map].
      rewrite rows_of_sweep_cons_eq.
      rewrite flat_map_rows_skip by exact Hno.
      simpl. f_equal. exact IH.
Qed.

(** ** baseline_subtract *)

Lemma filter_sweep_window (df : DataFrame) (w : window) (k : Z) :
  rows_of_sweep k (query_window w df) = window_rows df w k.
Proof.
  unfold rows_of_sweep, query_window, window_rows.
  induction df as [|r t IH]; simpl; [reflexivity|].
  destruct (in_window w r); simpl.
  - rewrite andb_true_r. destruct (c_sweep r =? k)%Z; now rewrite IH.
  - now rewrite andb_false_r.
Qed.

Lemma mean_list_mean (h : Q) (t : list Q) : mean h t = list_mean (h :: t).
Proof. reflexivity. Qed.

Lemma series_get_groups (f : Q -> list Q -> Q) (q : DataFrame) (ks : list Z) (k : Z) :
  In k ks ->
  forall h t, rows_of_sweep k q = h :: t ->
  series_get (map (fun g => (g_name g, g_agg f c_i g)) (flat_map (group_of q) ks)) k
  = Ok (f (c_i h) (map c_i t)).
Proof.
  intros Hin h t Hrows.
  induction ks as [|a ks IH]; [destruct Hin|].
  cbn [flat_map]. rewrite map_app.
  destruct (Z.eq_dec a k) as [->|Hne].
  - unfold group_of at 1. rewrite Hrows. simpl. now rewrite Z.eqb_refl.
  - destruct Hin as [Hin|Hin]; [contradiction|].
    unfold group_of at 1.
    destruct (rows_of_sweep a q) as [|h' t']; simpl.
    + now apply IH.
    + destruct (a =? k)%Z eqn:E; [apply Z.eqb_eq in E; contradiction|].
      now apply IH.
Qed.

Lemma every_sweep_in_window_row (df : DataFrame) (w : window) (r : row) :
  every_sweep_in_window df w = true -> In r df ->
  exists r', In r' (window_rows df w (c_sweep r)).
Proof.
  unfold every_sweep_in_window. rewrite forallb_forall. intros H Hr.
  specialize (H r Hr). apply existsb_exists in H. destruct H as (r' & Hr' & Hc).
  exists r'. unfold window_rows. apply filter_In. now split.
Qed.

Lemma baselines_get (df : DataFrame) (w : window) (r : row) :
  every_sweep_in_window df w = true -> In r df ->
  series_get (baselines df w) (c_sweep r) = Ok (window_mean df w (c_sweep r)).
Proof.
  intros Hall Hr.
  destruct (every_sweep_in_window_row df w r Hall Hr) as (r' & Hr').
  unfold baselines, groupby_sweep, window_mean.
  rewrite <- filter_sweep_window in Hr' |- *.
  destruct (rows_of_sweep (c_sweep r) (query_window w df)) as [|h t] eqn:E;
    [destruct Hr'|].
  assert (Hh : In h (query_window w df) /\ c_sweep h = c_sweep r).
  { apply rows_of_sweep_In. rewrite E. now left. }
  destruct Hh as [Hh Hs].
  rewrite (series_get_groups mean _ _ (c_sweep r)) with (h := h) (t := t).
  - reflexivity.
  - apply group_keys_In. rewrite <- Hs. now apply in_map.
  - exact E.
Qed.

Lemma iblsub_ok (df : DataFrame) (w : window) :
  every_sweep_in_window df w = true ->
  iblsub df w
  = Ok (map (fun g => map (fun x => x - window_mean df w (g_name g)) (g_col c_i g))
            (groupby_sweep df)).
Proof.
  intro Hall. unfold iblsub. apply mapM_ok. intros g Hg.
  destruct (group_row_sweep df g (g_head g) Hg (or_introl eq_refl)) as [Hin Hs].
  rewrite <- Hs. now rewrite (baselines_get df w _ Hall Hin).
Qed.

Lemma concat_group_values (df : DataFrame) (wm : Z -> Q) (gs : list group) :
  (forall g, In g gs -> In g (groupby_sweep df)) ->
  concat (map (fun g => map (fun x => x - wm (g_name g)) (g_col c_i g)) gs)
  = map (fun r => c_i r - wm (c_sweep r)) (concat (map g_rows gs)).
Proof.
  induction gs as [|g t IH]; intro H; [reflexivity|].
  cbn [map concat]. rewrite map_app, IH by (intros; apply H; now right).
  f_equal. unfold g_col. rewrite map_map. apply map_ext_in. intros r Hr.
  destruct (group_row_sweep df g r (H g (or_introl eq_refl)) Hr) as [_ ->].
  reflexivity.
Qed.

Lemma assign_i_map (df : DataFrame) (f : row -> Q) :
  assign_i df (map f df) = Ok (map (fun r => set_i r (f r)) df).
Proof.
  unfold assign_i. rewrite length_map, Nat.eqb_refl. f_equal.
  induction df as [|r t IH]; simpl; [reflexivity|]. now rewrite IH.
Qed.

Lemma baseline_subtracted_rows (df0 df : DataFrame) (w : window) :
  Forall2 (fun r r' => c_i r' == c_i r - window_mean df0 w (c_sweep r)) df
          (map (fun r => set_i r (c_i r - window_mean df0 w (c_sweep r))) df).
Proof.
  induction df as [|r t IH]; simpl; constructor; [reflexivity|exact IH].
Qed.

(** C1 (as amended).  For a table whose sweeps never decrease down the
    lines (the layout that [load_file] produces) and in which every sweep
    has a line in the window, [baseline_subtract] succeeds and gives the
    table in which every line keeps its place and its column [i] is the
    original [i] minus the mean of the original [i] over the lines of the
    same sweep with [w0 <= ti < w1]. *)
Theorem baseline_subtract_ascending (df : DataFrame) (w : window) :
  sweeps_ascending df = true ->
  every_sweep_in_window df w = true ->
  baseline_subtract df w = Ok (baseline_subtracted df w)
  /\ baseline_rows_ok df w (baseline_subtracted df w).
Proof.
  intros Hasc Hall. split; [|apply baseline_subtracted_rows].
  unfold baseline_subtract. rewrite (iblsub_ok df w Hall). cbn [bind].
  rewrite (concat_group_values df) by auto.
  unfold groupby_sweep at 1. rewrite groups_rows, (groups_of_ascending df Hasc).
  apply assign_i_map.
Qed.

Lemma baseline_subtract_ascending_witness :
  baseline_subtract [sample 1 0 20 1; sample 1 5 40 1; sample 2 0 10 1] (0, 5)
  = Ok (baseline_subtracted [sample 1 0 20 1; sample 1 5 40 1; sample 2 0 10 1] (0, 5))
  /\ baseline_rows_ok [sample 1 0 20 1; sample 1 5 40 1; sample 2 0 10 1] (0, 5)
       (baseline_subtracted [sample 1 0 20 1; sample 1 5 40 1; sample 2 0 10 1] (0, 5)).
Proof.
  apply (baseline_subtract_ascending
           [sample 1 0 20 1; sample 1 5 40 1; sample 2 0 10 1] (0, 5));
    reflexivity.
Defined.

(** C1 (as stated) fails on a table whose sweeps are interleaved: every
    sweep of [interleaved] has a line in the window, yet the first line
    (sweep 2, [i = 10], mean of its sweep 10) receives the value computed
    for the first line of sweep 1. *)
Lemma baseline_subtract_interleaved :
  every_sweep_in_window interleaved (0, 1) = true
  /\ ~ (exists df', baseline_subtract interleaved (0, 1) = Ok df'
                    /\ baseline_rows_ok interleaved (0, 1) df').
Proof.
  split; [reflexivity|].
  intros (df' & Hrun & Hrows).
  vm_compute in Hrun. injection Hrun as <-.
  inversion Hrows as [|r r' l l' Hhead _]; subst.
  vm_compute in Hhead. discriminate Hhead.
Qed.

(** ** sweep_summary *)

Lemma group_lookup_absent (q : DataFrame) (ks : list Z) (k : Z) :
  rows_of_sweep k q = [] -> group_lookup (flat_map (group_of q) ks) k = None.
Proof.
  intro Hrows. induction ks as [|a ks IH]; [reflexivity|].
  cbn [flat_map]. unfold group_of at 1.
  destruct (rows_of_sweep a q) as [|h t] eqn:E; simpl; [exact IH|].
  destruct (a =? k)%Z eqn:Eak; [|exact IH].
  apply Z.eqb_eq in Eak. subst a. congruence.
Qed.

Lemma group_lookup_present (q : DataFrame) (ks : list Z) (k : Z) (h : row) (t : list row) :
  In k ks -> rows_of_sweep k q = h :: t ->
  group_lookup (flat_map (group_of q) ks) k = Some (mkGroup k h t).
Proof.
  intros Hin Hrows. induction ks as [|a ks IH]; [destruct Hin|].
  cbn [flat_map]. unfold group_of at 1.
  destruct (Z.eq_dec a k) as [->|Hne].
  - rewrite Hrows. simpl. now rewrite Z.eqb_refl.
  - destruct Hin as [Hin|Hin]; [contradiction|].
    destruct (rows_of_sweep a q) as [|h' t']; simpl; [now apply IH|].
    destruct (a =? k)%Z eqn:E; [apply Z.eqb_eq in E; contradiction|].
    now apply IH.
Qed.

(** The group of sweep [k] in a [groupby]: its lines are the lines of the
    sweep, and there is no group for a sweep without lines. *)
Lemma group_lookup_groupby (q : DataFrame) (k : Z) :
  group_lookup (groupby_sweep q) k
  = match rows_of_sweep k q with
    | [] => None
    | h :: t => Some (mkGroup k h t)
    end.
Proof.
  unfold groupby_sweep.
  destruct (rows_of_sweep k q) as [|h t] eqn:E.
  - now apply group_lookup_absent.
  - apply group_lookup_present; [|exact E].
    apply group_keys_In.
    assert (Hh : In h q /\ c_sweep h = k).
    { apply rows_of_sweep_In. rewrite E. now left. }
    destruct Hh as [Hh <-]. now apply in_map.
Qed.

Lemma cell_at_groups (F : group -> fnum) (gs : list group) (k : Z) :
  cell_at (map g_name gs) (map F gs) k = option_map F (group_lookup gs k).
Proof.
  induction gs as [|g t IH]; simpl; [reflexivity|].
  destruct (g_name g =? k)%Z; [reflexivity|exact IH].
Qed.

(** A column built from an aggregate of the groups of the window holds,
    for each sweep, the aggregate over the lines of the sweep inside the
    window. *)
Lemma cell_at_window (agg : Q -> list Q -> Q) (f : row -> Q) (wrap : Q -> fnum)
      (df : DataFrame) (w : window) (k : Z) :
  cell_at (map g_name (groupby_sweep (query_window w df)))
          (map (fun g => wrap (g_agg agg f g)) (groupby_sweep (query_window w df))) k
  = option_map wrap (window_stat agg f df w k).
Proof.
  rewrite cell_at_groups, group_lookup_groupby, filter_sweep_window.
  unfold window_stat. destruct (window_rows df w k); reflexivity.
Qed.

(** The table of [sweep_summary], whatever the statistic, has the sweeps
    of the window as index and the column [pressure]. *)
Lemma sweep_summary_shape (df : DataFrame) (w : window) (param : string) (s : SummaryDf) :
  sweep_summary df w param = Ok (Some s) ->
  s_index s = map g_name (groupby_sweep (query_window w df))
  /\ column "pressure" (s_columns s)
     = Some (pressure_column (groupby_sweep (query_window w df))).
Proof.
  unfold sweep_summary.
  destruct (i_thalf_loop df _) as [arr|e]; cbn [bind]; [|discriminate].
  destruct (String.eqb param "None"); [discriminate|].
  destruct (String.eqb param "Mean");
    [|destruct (String.eqb param "Min")];
    intro H; injection H as <-; split; reflexivity.
Qed.

(** C2 (as amended).  In the table returned by [sweep_summary], for every
    statistic, the entry of the column [pressure] for a sweep is the
    absolute value of the median of [p] over the lines of that sweep
    inside the window; a sweep without a line in the window has no entry. *)
Theorem sweep_summary_pressure (df : DataFrame) (w : window) (param : string)
        (s : SummaryDf) (k : Z) :
  sweep_summary df w param = Ok (Some s) ->
  summary_cell s "pressure" k
  = option_map (fun m => Fin (Qabs m)) (window_stat median c_p df w k).
Proof.
  intro H. apply sweep_summary_shape in H. destruct H as [Hidx Hcol].
  unfold summary_cell. rewrite Hcol, Hidx.
  apply (cell_at_window median c_p (fun m => Fin (Qabs m))).
Qed.

Lemma sweep_summary_pressure_witness :
  exists s, sweep_summary suction (0, 400) "Min" = Ok (Some s)
            /\ summary_cell s "pressure" 1
               = option_map (fun m => Fin (Qabs m))
                            (window_stat median c_p suction (0, 400) 1).
Proof.
  eexists. split; [reflexivity|].
  apply (sweep_summary_pressure suction (0, 400) "Min" _ 1). reflexivity.
Defined.

(** C2 (as stated) fails under suction: the median of [p] over the sweep
    is [-20], the entry of the column [pressure] is [20]. *)
Lemma sweep_summary_pressure_sign :
  exists s, sweep_summary suction (0, 400) "Max" = Ok (Some s)
            /\ window_stat median c_p suction (0, 400) 1 = Some (-20 # 1)
            /\ summary_cell s "pressure" 1 = Some (Fin (20 # 1))
            /\ ~ (20 # 1 == -20 # 1).
Proof.
  eexists. split; [reflexivity|].
  split; [reflexivity|]. split; [reflexivity|].
  intro H. vm_compute in H. discriminate H.
Qed.

(** *** The median is taken on the sorted values *)

Lemma Qle_bool_false (a b : Q) : Qle_bool a b = false -> b <= a.
Proof.
  intro H. destruct (Qlt_le_dec a b) as [Hlt|Hge]; [|exact Hge].
  apply Qlt_le_weak in Hlt. apply Qle_bool_iff in Hlt. congruence.
Qed.

Lemma insert_sorted_perm (x : Q) (l : list Q) :
  Permutation (x :: l) (insert_sorted x l).
Proof.
  induction l as [|h t IH]; simpl; [apply Permutation_refl|].
  destruct (Qle_bool x h); [apply Permutation_refl|].
  eapply Permutation_trans; [apply perm_swap|]. now apply perm_skip.
Qed.

Lemma sort_values_perm (l : list Q) : Permutation l (sort_values l).
Proof.
  induction l as [|h t IH]; simpl; [apply Permutation_refl|].
  eapply Permutation_trans; [apply perm_skip, IH|apply insert_sorted_perm].
Qed.

Lemma insert_sorted_sorted (x : Q) (l : list Q) :
  Sorted Qle l -> Sorted Qle (insert_sorted x l).
Proof.
  induction 1 as [|h t Hs IH Hhd]; simpl.
  - repeat constructor.
  - destruct (Qle_bool x h) eqn:E.
    + apply Qle_bool_iff in E. repeat constructor; assumption.
    + apply Qle_bool_false in E. constructor; [exact IH|].
      destruct t as [|h' t']; simpl.
      * now constructor.
      * destruct (Qle_bool x h'); constructor; [exact E|].
        now inversion Hhd.
Qed.

Lemma sort_values_sorted (l : list Q) : Sorted Qle (sort_values l).
Proof.
  induction l as [|h t IH]; simpl; [constructor|now apply insert_sorted_sorted].
Qed.

(** *** The dispatch on [param] *)

Lemma list_max_fold (t : list Q) : forall h,
  In (fold_left Qmax t h) (h :: t)
  /\ h <= fold_left Qmax t h
  /\ Forall (fun x => x <= fold_left Qmax t h) t.
Proof.
  induction t as [|a t IH]; intro h; simpl.
  - split; [now left|]. split; [apply Qle_refl|constructor].
  - destruct (IH (Qmax h a)) as (Hin & Hle & Hall).
    assert (Hm : h <= Qmax h a /\ a <= Qmax h a /\ (Qmax h a = h \/ Qmax h a = a)).
    { unfold Qmax. destruct (Qle_bool h a) eqn:E.
      - apply Qle_bool_iff in E. repeat split; [exact E|apply Qle_refl|now right].
      - repeat split; [apply Qle_refl| |now left].
        destruct (Qlt_le_dec h a) as [Hlt|Hge]; [|exact Hge].
        apply Qlt_le_weak in Hlt. apply Qle_bool_iff in Hlt. congruence. }
    destruct Hm as (Hh & Ha & Hsel).
    split; [|split].
    + destruct Hin as [Hin|Hin]; [|now right; right].
      rewrite <- Hin. destruct Hsel as [->| ->]; [now left|now right; left].
    + eapply Qle_trans; eassumption.
    + constructor; [eapply Qle_trans; eassumption|exact Hall].
Qed.

(** [list_max] is one of the values and none is greater. *)
Lemma list_max_greatest (h : Q) (t : list Q) :
  In (list_max h t) (h :: t) /\ Forall (fun x => x <= list_max h t) (h :: t).
Proof.
  destruct (list_max_fold t h) as (Hin & Hle & Hall).
  split; [exact Hin|]. constructor; assumption.
Qed.

Lemma param_neq (param name : string) : param <> name -> String.eqb param name = false.
Proof. intro H. now apply String.eqb_neq. Qed.

(** C9 (as amended).  When the loop that fills [i_thalf] before the
    dispatch succeeds, [sweep_summary] returns no table for the [param]
    ['None'], and for a [param] other than ['None'], ['Mean'] and ['Min'] it
    returns the table of the maxima (columns [pressure], [max_i],
    [max_norm_i], the entry of [max_i] being the greatest [i] of the sweep
    in the window); in every case such a [param] behaves as ['Max'] does. *)
Theorem sweep_summary_dispatch (df : DataFrame) (w : window) (param : string) :
  (is_ok (i_thalf_loop df (length (groupby_sweep (query_window w df)))) = true ->
   sweep_summary df w "None" = Ok None
   /\ (param <> "None"%string -> param <> "Mean"%string -> param <> "Min"%string ->
       exists s, sweep_summary df w param = Ok (Some s)
                 /\ map fst (s_columns s)
                    = ["pressure"%string; "max_i"%string; "max_norm_i"%string]
                 /\ forall k, summary_cell s "max_i" k
                              = option_map Fin (window_stat list_max c_i df w k)))
  /\ (param <> "None"%string -> param <> "Mean"%string -> param <> "Min"%string ->
      sweep_summary df w param = sweep_summary df w "Max").
Proof.
  split.
  - intro Hloop. unfold sweep_summary.
    destruct (i_thalf_loop df _) as [arr|e]; [|discriminate Hloop]. cbn [bind].
    split; [reflexivity|].
    intros H1 H2 H3.
    rewrite (param_neq _ _ H1), (param_neq _ _ H2), (param_neq _ _ H3).
    eexists. split; [reflexivity|]. split; [reflexivity|].
    intro k. unfold summary_cell. cbn [s_columns s_index column String.eqb Ascii.eqb Bool.eqb].
    rewrite map_map. apply (cell_at_window list_max c_i Fin).
  - intros H1 H2 H3. unfold sweep_summary.
    destruct (i_thalf_loop df _) as [arr|e]; [|reflexivity]. cbn [bind].
    now rewrite (param_neq _ _ H1), (param_neq _ _ H2), (param_neq _ _ H3).
Qed.

Lemma sweep_summary_dispatch_witness :
  sweep_summary two_sweeps (0, 100) "None" = Ok None
  /\ exists s, sweep_summary two_sweeps (0, 100) "max" = Ok (Some s)
               /\ map fst (s_columns s)
                  = ["pressure"%string; "max_i"%string; "max_norm_i"%string]
               /\ forall k, summary_cell s "max_i" k
                            = option_map Fin (window_stat list_max c_i two_sweeps (0, 100) k).
Proof.
  destruct (sweep_summary_dispatch two_sweeps (0, 100) "max") as [H _].
  destruct (H eq_refl) as [Hnone Hmax].
  split; [exact Hnone|].
  apply Hmax; discriminate.
Defined.

(** C9 (as stated) fails on a table without a sample at 250: the loop that
    fills [i_thalf] raises before [param] is looked at. *)
Lemma sweep_summary_dispatch_raises :
  sweep_summary [sample 1 0 5 1] (0, 10) "None" = Err ValueError
  /\ sweep_summary [sample 1 0 5 1] (0, 10) "Maxx" = Err ValueError.
Proof. split; reflexivity. Qed.

(** *** The loop that fills [i_thalf] *)

Lemma length_list_set {A : Type} (l : list A) (k : nat) (x : A) :
  length (list_set l k x) = length l.
Proof.
  revert k. induction l as [|h t IH]; intros [|k]; simpl; auto.
Qed.

Lemma nth_error_list_set_eq {A : Type} (l : list A) (k : nat) (x : A) :
  (k < length l)%nat -> nth_error (list_set l k x) k = Some x.
Proof.
  revert k. induction l as [|h t IH]; intros [|k] H; simpl in *.
  - lia.
  - lia.
  - reflexivity.
  - apply IH. lia.
Qed.

Lemma nth_error_list_set_neq {A : Type} (l : list A) (k j : nat) (x : A) :
  k <> j -> nth_error (list_set l k x) j = nth_error l j.
Proof.
  revert k j. induction l as [|h t IH]; intros [|k] [|j] H; simpl;
    try reflexivity; try congruence.
  apply IH. congruence.
Qed.

Lemma array_index_label (n : nat) (name : Z) :
  (1 <= name <= Z.of_nat n)%Z ->
  array_index n (name - 1) = Ok (Z.to_nat (name - 1)).
Proof.
  intro H. unfold array_index.
  replace ((0 <=? name - 1)%Z) with true by (symmetry; apply Z.leb_le; lia).
  replace ((name - 1 <? Z.of_nat n)%Z) with true by (symmetry; apply Z.ltb_lt; lia).
  reflexivity.
Qed.

Lemma thalf_fold_err (gs : list group) (e : exn) :
  fold_left thalf_step gs (Err e) = Err e.
Proof. induction gs; simpl; auto. Qed.

(** A sweep without exactly one sample at 250 makes the loop raise. *)
Lemma thalf_fold_bad (gs : list group) :
  (exists g, In g gs /\ length (at_thalf g) <> 1%nat) ->
  forall acc, is_ok (fold_left thalf_step gs acc) = false.
Proof.
  induction gs as [|g t IH]; intros (b & Hb & Hbad) acc; [destruct Hb|].
  cbn [fold_left]. destruct acc as [arr|e].
  2:{ change (thalf_step (Err e) g) with (@Err (list Q) e).
      now rewrite thalf_fold_err. }
  destruct Hb as [->|Hb]; [|apply IH; now exists b].
  assert (Hstep : exists e, thalf_step (Ok arr) b = Err e).
  { unfold thalf_step, setitem. cbn [bind].
    destruct (array_index (length arr) (g_name b - 1)) as [k|e]; cbn [bind];
      [|now exists e].
    destruct (at_thalf b) as [|x [|y l]]; [now eexists| |now eexists].
    simpl in Hbad. congruence. }
  destruct Hstep as (e & ->). now rewrite thalf_fold_err.
Qed.

Lemma thalf_fold_ok (n : nat) (gs : list group) : forall arr0,
  length arr0 = n ->
  NoDup (map g_name gs) ->
  (forall g, In g gs ->
             (1 <= g_name g <= Z.of_nat n)%Z /\ exists x, at_thalf g = [x]) ->
  exists arr,
    fold_left thalf_step gs (Ok arr0) = Ok arr
    /\ length arr = n
    /\ (forall g x, In g gs -> at_thalf g = [x] ->
                    nth_error arr (Z.to_nat (g_name g - 1)) = Some x)
    /\ (forall j, (forall g, In g gs -> Z.to_nat (g_name g - 1) <> j) ->
                  nth_error arr j = nth_error arr0 j).
Proof.
  induction gs as [|g t IH]; intros arr0 Hlen Hnd Hall.
  - exists arr0. simpl. repeat split; auto. intros g x [].
  - destruct (Hall g (or_introl eq_refl)) as (Hrange & x & Hx).
    inversion Hnd as [|? ? Hnotin Hnd']; subst.
    set (k := Z.to_nat (g_name g - 1)).
    assert (Hstep : thalf_step (Ok arr0) g = Ok (list_set arr0 k x)).
    { unfold thalf_step, setitem. cbn [bind].
      rewrite array_index_label by exact Hrange. cbn [bind]. now rewrite Hx. }
    destruct (IH (list_set arr0 k x)) as (arr & Hrun & Hlen' & Hval & Hkeep).
    { apply length_list_set. }
    { exact Hnd'. }
    { intros g' Hg'. apply Hall. now right. }
    assert (Hk : forall g', In g' t -> Z.to_nat (g_name g' - 1) <> k).
    { intros g' Hg' Heq. apply Hnotin.
      destruct (Hall g' (or_intror Hg')) as (Hr' & _).
      assert (g_name g' = g_name g) by (unfold k in Heq; lia).
      rewrite <- H. now apply in_map. }
    exists arr. cbn [fold_left]. rewrite Hstep.
    split; [exact Hrun|]. split; [exact Hlen'|]. split.
    + intros g' x' [<-|Hg'] Hx'.
      * rewrite Hx in Hx'. injection Hx' as <-.
        fold k. rewrite (Hkeep k Hk).
        apply nth_error_list_set_eq. unfold k. lia.
      * now apply Hval.
    + intros j Hj. rewrite Hkeep by (intros g' Hg'; apply Hj; now right).
      apply nth_error_list_set_neq. apply (Hj g). now left.
Qed.

Lemma groups_names (q : DataFrame) (ks : list Z) :
  (forall k, In k ks -> In k (map c_sweep q)) ->
  map g_name (flat_map (group_of q) ks) = ks.
Proof.
  induction ks as [|k t IH]; intro H; [reflexivity|].
  cbn [flat_map]. rewrite map_app, IH by (intros; apply H; now right).
  unfold group_of.
  destruct (rows_of_sweep k q) as [|h r] eqn:E; [|reflexivity].
  exfalso. specialize (H k (or_introl eq_refl)).
  apply in_map_iff in H. destruct H as (x & Hx & Hin).
  assert (Hr : In x (rows_of_sweep k q)) by (apply rows_of_sweep_In; now split).
  rewrite E in Hr. exact Hr.
Qed.

(** The names of the groups are the keys. *)
Lemma groupby_names (q : DataFrame) :
  map g_name (groupby_sweep q) = group_keys (map c_sweep q).
Proof.
  apply groups_names. intros k Hk. now apply (proj1 (group_keys_In _ _)).
Qed.

Lemma sorted_NoDup (l : list Z) : StronglySorted Z.lt l -> NoDup l.
Proof.
  induction 1 as [|a l Hs IH Hall]; constructor; [|exact IH].
  intro Hin. rewrite Forall_forall in Hall. specialize (Hall _ Hin). lia.
Qed.

Lemma filter_twice {A : Type} (f g : A -> bool) (l : list A) :
  filter g (filter f l) = filter (fun x => f x && g x) l.
Proof.
  induction l as [|a t IH]; simpl; [reflexivity|].
  destruct (f a); simpl; [|exact IH].
  destruct (g a); now rewrite IH.
Qed.

Lemma at_thalf_rows (df : DataFrame) (g : group) :
  In g (groupby_sweep df) -> at_thalf g = map c_i (thalf_rows df (g_name g)).
Proof.
  intro Hg. unfold at_thalf. rewrite (groupby_sweep_In df g Hg).
  unfold rows_of_sweep, thalf_rows. now rewrite filter_twice.
Qed.

Lemma group_head_In (df : DataFrame) (g : group) :
  In g (groupby_sweep df) -> exists r, In r df /\ c_sweep r = g_name g.
Proof.
  intro Hg. exists (g_head g).
  apply (group_row_sweep df g (g_head g) Hg). now left.
Qed.

Lemma sweep_has_group (df : DataFrame) (r : row) :
  In r df -> exists g, In g (groupby_sweep df) /\ g_name g = c_sweep r.
Proof.
  intro Hr.
  assert (Hk : In (c_sweep r) (map g_name (groupby_sweep df))).
  { rewrite groupby_names. apply group_keys_In. now apply in_map. }
  apply in_map_iff in Hk. destruct Hk as (g & Hn & Hg). now exists g.
Qed.

Lemma forallb_false {A : Type} (f : A -> bool) (l : list A) :
  forallb f l = false -> exists x, In x l /\ f x = false.
Proof.
  induction l as [|a t IH]; simpl; [discriminate|].
  destruct (f a) eqn:E; simpl.
  - intro H. destruct (IH H) as (x & Hx & Hf). exists x. auto.
  - intros _. exists a. auto.
Qed.

Lemma groups_in_window_length (df : DataFrame) (w : window) :
  length (groupby_sweep (query_window w df)) = length (sweeps_in_window df w).
Proof.
  unfold sweeps_in_window. rewrite <- groupby_names. now rewrite length_map.
Qed.

Lemma thalf_single (df : DataFrame) (r : row) :
  one_thalf_per_sweep df = true -> In r df ->
  exists y, thalf_rows df (c_sweep r) = [y].
Proof.
  unfold one_thalf_per_sweep. rewrite forallb_forall. intros H Hr.
  specialize (H r Hr). apply Nat.eqb_eq in H.
  destruct (thalf_rows df (c_sweep r)) as [|y [|z l]]; try discriminate H.
  now exists y.
Qed.

Lemma i_thalf_loop_ok (df : DataFrame) (w : window) :
  one_thalf_per_sweep df = true -> labels_fit df w = true ->
  exists arr,
    i_thalf_loop df (length (groupby_sweep (query_window w df))) = Ok arr
    /\ forall r, In r df -> Qeq_bool (c_ti r) 250 = true ->
                 nth_error arr (Z.to_nat (c_sweep r - 1)) = Some (c_i r).
Proof.
  intros Hone Hfit.
  set (n := length (groupby_sweep (query_window w df))).
  destruct (thalf_fold_ok n (groupby_sweep df) (repeat 0 n))
    as (arr & Hrun & _ & Hval & _).
  - apply repeat_length.
  - rewrite groupby_names. apply sorted_NoDup, group_keys_sorted.
  - intros g Hg. destruct (group_head_In df g Hg) as (r & Hr & Hs).
    split.
    + unfold labels_fit in Hfit. rewrite forallb_forall in Hfit.
      specialize (Hfit r Hr). apply andb_true_iff in Hfit.
      destruct Hfit as [H1 H2]. apply Z.leb_le in H1, H2.
      unfold n. rewrite groups_in_window_length, <- Hs. lia.
    + rewrite (at_thalf_rows df g Hg), <- Hs.
      destruct (thalf_single df r Hone Hr) as (y & ->). now exists (c_i y).
  - exists arr. split; [exact Hrun|].
    intros r Hr Ht.
    destruct (sweep_has_group df r Hr) as (g & Hg & Hn).
    rewrite <- Hn. apply (Hval g); [exact Hg|].
    rewrite (at_thalf_rows df g Hg), Hn.
    destruct (thalf_single df r Hone Hr) as (y & Hy).
    assert (Hin : In r (thalf_rows df (c_sweep r))).
    { unfold thalf_rows. apply filter_In. split; [exact Hr|].
      now rewrite Z.eqb_refl, Ht. }
    rewrite Hy in Hin |- *. destruct Hin as [->|[]]. reflexivity.
Qed.

Lemma i_thalf_loop_bad (df : DataFrame) (n : nat) :
  one_thalf_per_sweep df = false -> is_ok (i_thalf_loop df n) = false.
Proof.
  intro H. apply forallb_false in H. destruct H as (r & Hr & Hbad).
  apply Nat.eqb_neq in Hbad.
  destruct (sweep_has_group df r Hr) as (g & Hg & Hn).
  apply thalf_fold_bad. exists g. split; [exact Hg|].
  rewrite (at_thalf_rows df g Hg), length_map, Hn. exact Hbad.
Qed.

(** C10 (as amended).  [sweep_summary] takes [i_thalf] from the whole
    trace of each sweep, whatever the window: when every sweep has exactly
    one sample at [ti == 250.0] and the sweeps are numbered from 1 to the
    number of sweeps that have a line in the window, the ['Min'] summary is
    returned, its column [i_thalf] holds in the cell [sweep - 1] the [i] of
    that sample, and the column [inactivation] is [i_thalf] divided cell by
    cell by [min_i]; when some sweep has no sample or several at
    [ti == 250.0], the call raises for every [param]. *)
Theorem sweep_summary_thalf (df : DataFrame) (w : window) :
  (one_thalf_per_sweep df = true -> labels_fit df w = true ->
   exists s arr mins,
     sweep_summary df w "Min" = Ok (Some s)
     /\ column "i_thalf" (s_columns s) = Some (map Fin arr)
     /\ column "min_i" (s_columns s) = Some (map Fin mins)
     /\ column "inactivation" (s_columns s)
        = Some (map (fun ab => fdiv (fst ab) (snd ab)) (combine arr mins))
     /\ forall r, In r df -> Qeq_bool (c_ti r) 250 = true ->
                  nth_error arr (Z.to_nat (c_sweep r - 1)) = Some (c_i r))
  /\ (one_thalf_per_sweep df = false ->
      forall param, is_ok (sweep_summary df w param) = false).
Proof.
  split.
  - intros Hone Hfit.
    destruct (i_thalf_loop_ok df w Hone Hfit) as (arr & Hrun & Hval).
    unfold sweep_summary. rewrite Hrun. cbn [bind].
    eexists. exists arr. eexists.
    split; [reflexivity|].
    split; [reflexivity|]. split; [reflexivity|]. split; [reflexivity|].
    exact Hval.
  - intros Hbad param. unfold sweep_summary.
    pose proof (i_thalf_loop_bad df (length (groupby_sweep (query_window w df))) Hbad) as H.
    destruct (i_thalf_loop df _); [discriminate H|reflexivity].
Qed.

Lemma sweep_summary_thalf_witness :
  exists s arr mins,
    sweep_summary two_sweeps (0, 100) "Min" = Ok (Some s)
    /\ column "i_thalf" (s_columns s) = Some (map Fin arr)
    /\ column "min_i" (s_columns s) = Some (map Fin mins)
    /\ column "inactivation" (s_columns s)
       = Some (map (fun ab => fdiv (fst ab) (snd ab)) (combine arr mins))
    /\ forall r, In r two_sweeps -> Qeq_bool (c_ti r) 250 = true ->
                 nth_error arr (Z.to_nat (c_sweep r - 1)) = Some (c_i r).
Proof.
  destruct (sweep_summary_thalf two_sweeps (0, 100)) as [H _].
  apply H; reflexivity.
Defined.

(** C10 (as stated) fails when the window leaves a sweep out: the only
    sweep has its one sample at 250, the window [(0, 100)] holds no line,
    [i_thalf] has no cell and the assignment raises. *)
Lemma sweep_summary_thalf_window :
  one_thalf_per_sweep [sample 1 250 5 1] = true
  /\ sweep_summary [sample 1 250 5 1] (0, 100) "Min" = Err IndexError.
Proof. split; reflexivity. Qed.

(** ** Windows *)

Lemma in_window_half_open (w : window) (r : row) :
  in_window w r = true <-> half_open w r.
Proof.
  unfold in_window, half_open.
  rewrite andb_true_iff, Qle_bool_iff, Qlt_bool_iff. reflexivity.
Qed.

Lemma window_rows_In (df : DataFrame) (w : window) (k : Z) (r : row) :
  In r (window_rows df w k) <-> In r df /\ c_sweep r = k /\ half_open w r.
Proof.
  unfold window_rows.
  rewrite filter_In, andb_true_iff, Z.eqb_eq, in_window_half_open. reflexivity.
Qed.

Lemma series_get_lookup (F : group -> Q) (gs : list group) (k : Z) :
  series_get (map (fun g => (g_name g, F g)) gs) k
  = match group_lookup gs k with
    | Some g => Ok (F g)
    | None => Err KeyError
    end.
Proof.
  induction gs as [|g t IH]; simpl; [reflexivity|].
  destruct (g_name g =? k)%Z; [reflexivity|exact IH].
Qed.

Lemma baselines_window (df : DataFrame) (w : window) (k : Z) :
  series_get (baselines df w) k
  = match window_rows df w k with
    | [] => Err KeyError
    | _ :: _ => Ok (window_mean df w k)
    end.
Proof.
  unfold baselines. rewrite series_get_lookup, group_lookup_groupby.
  rewrite filter_sweep_window. unfold window_mean.
  destruct (window_rows df w k); reflexivity.
Qed.

Lemma sweeps_in_window_In (df : DataFrame) (w : window) (k : Z) :
  In k (sweeps_in_window df w)
  <-> exists r, In r df /\ c_sweep r = k /\ half_open w r.
Proof.
  unfold sweeps_in_window. rewrite group_keys_In, in_map_iff.
  split.
  - intros (r & Hs & Hr). exists r. unfold query_window in Hr.
    apply filter_In in Hr. destruct Hr as [Hr Hw].
    apply in_window_half_open in Hw. auto.
  - intros (r & Hr & Hs & Hw). exists r. split; [exact Hs|].
    unfold query_window. apply filter_In. split; [exact Hr|].
    now apply in_window_half_open.
Qed.

(** ** Effects on the tables *)

Lemma assign_i_columns (df : DataFrame) : forall vals df',
  assign_i df vals = Ok df' ->
  Forall2 (fun r r' => r' = set_i r (c_i r')) df df'.
Proof.
  unfold assign_i. intros vals df'.
  destruct (length vals =? length df)%nat eqn:E; [|discriminate].
  apply Nat.eqb_eq in E. intro H. injection H as <-.
  revert vals E. induction df as [|r t IH]; intros [|x vals] E; simpl in *;
    try discriminate; constructor.
  - reflexivity.
  - apply IH. lia.
Qed.

Lemma baseline_subtract_columns (df df' : DataFrame) (w : window) :
  baseline_subtract df w = Ok df' ->
  Forall2 (fun r r' => r' = set_i r (c_i r')) df df'.
Proof.
  unfold baseline_subtract. destruct (iblsub df w) as [sub|e]; cbn [bind];
    [|discriminate].
  apply assign_i_columns.
Qed.

(** C3 (as amended).  [sweep_summary] and [ngauss_guesses] leave every
    table as it was, [isolate_opening] and [load_file] only add a new
    table; [baseline_subtract] is not such a function: when it succeeds it
    returns the table it was given, whose column [i] has been replaced in
    place (the other columns and the other tables are untouched), and when
    it raises it has changed nothing. *)
Theorem table_effects (h : Ref.heap) (df : Ref.loc) (w : window) :
  (forall param, snd (Ref.sweep_summary df w param h) = h)
  /\ (forall x y n, snd (Ref.ngauss_guesses x y n h) = h)
  /\ (forall n, exists l, snd (Ref.isolate_opening df n w h) = h ++ l)
  /\ (forall parse content, exists l, snd (Ref.load_file parse content h) = h ++ l)
  /\ (forall t, nth_error h df = Some t ->
        match baseline_subtract t w with
        | Ok t' =>
            Ref.baseline_subtract df w h = (Ok df, list_set h df t')
            /\ nth_error (list_set h df t') df = Some t'
            /\ Forall2 (fun r r' => r' = set_i r (c_i r')) t t'
            /\ forall l, l <> df -> nth_error (list_set h df t') l = nth_error h l
        | Err e => Ref.baseline_subtract df w h = (Err e, h)
        end).
Proof.
  split; [|split; [|split; [|split]]].
  - intro param. unfold Ref.sweep_summary, Ref.mbind, Ref.read, Ref.lift.
    destruct (nth_error h df); reflexivity.
  - reflexivity.
  - intro n. unfold Ref.isolate_opening, Ref.mbind, Ref.read, Ref.alloc.
    destruct (nth_error h df); simpl.
    + eexists. reflexivity.
    + exists []. now rewrite app_nil_r.
  - intros parse content. unfold Ref.load_file, Ref.mbind, Ref.lift, Ref.alloc.
    destruct (load_file parse content); simpl.
    + eexists. reflexivity.
    + exists []. now rewrite app_nil_r.
  - intros t Ht.
    unfold Ref.baseline_subtract, Ref.mbind, Ref.read, Ref.lift, Ref.write, Ref.ret.
    rewrite Ht.
    destruct (baseline_subtract t w) as [t'|e] eqn:E; [|reflexivity].
    split; [reflexivity|]. split; [|split].
    + apply nth_error_list_set_eq. apply nth_error_Some. congruence.
    + now apply (baseline_subtract_columns t t' w).
    + intros l Hl. apply nth_error_list_set_neq. congruence.
Qed.

Lemma table_effects_witness :
  Ref.baseline_subtract 0%nat (0, 100) [two_sweeps]
  = (Ok 0%nat, [baseline_subtracted two_sweeps (0, 100)]).
Proof.
  destruct (table_effects [two_sweeps] 0%nat (0, 100)) as (_ & _ & _ & _ & H).
  specialize (H two_sweeps eq_refl).
  change (baseline_subtract two_sweeps (0, 100))
    with (Ok (baseline_subtracted two_sweeps (0, 100))) in H.
  exact (proj1 H).
Defined.

(** C3 (as stated) fails for [baseline_subtract]: after the call the table
    that was passed holds other values in its column [i]. *)
Lemma baseline_subtract_in_place :
  exists t',
    Ref.baseline_subtract 0%nat (0, 100) [two_sweeps] = (Ok 0%nat, [t'])
    /\ ~ Forall2 (fun r r' => c_i r' == c_i r) two_sweeps t'.
Proof.
  eexists. split; [reflexivity|].
  intro H. inversion H as [|r r' l l' _ Htail]; subst.
  inversion Htail as [|r2 r2' l2 l2' Hsecond _]; subst.
  vm_compute in Hsecond. discriminate Hsecond.
Qed.

(** ** ngauss_guesses *)

Lemma argmax_from_first (l : list Q) : forall pre best besti,
  (besti < length pre)%nat ->
  best = nth besti (pre ++ l) 0 ->
  (forall j, (j < length pre)%nat -> nth j (pre ++ l) 0 <= best) ->
  (forall j, (j < besti)%nat -> nth j (pre ++ l) 0 < best) ->
  first_max (pre ++ l) (argmax_from best besti (length pre) l).
Proof.
  induction l as [|h t IH]; intros pre best besti Hb Hbest Hle Hlt.
  - simpl. rewrite app_nil_r in *. unfold first_max. subst best.
    repeat split; assumption.
  - assert (Hh : nth (length pre) (pre ++ h :: t) 0 = h).
    { rewrite app_nth2 by lia. now rewrite Nat.sub_diag. }
    assert (Hassoc : pre ++ h :: t = (pre ++ [h]) ++ t)
      by (now rewrite <- app_assoc).
    assert (Hlen : length (pre ++ [h]) = S (length pre))
      by (rewrite length_app; simpl; lia).
    cbn [argmax_from].
    destruct (Qlt_bool best h) eqn:E.
    + apply Qlt_bool_iff in E.
      rewrite Hassoc, <- Hlen. rewrite Hassoc in Hh, Hle, Hlt.
      apply IH.
      * lia.
      * now rewrite Hh.
      * intros j Hj. rewrite Hlen in Hj.
        destruct (Nat.eq_dec j (length pre)) as [->|Hne].
        -- rewrite Hh. apply Qle_refl.
        -- apply Qlt_le_weak. eapply Qle_lt_trans; [apply Hle; lia|exact E].
      * intros j Hj. eapply Qle_lt_trans; [apply Hle; lia|exact E].
    + assert (Hge : h <= best).
      { destruct (Qlt_le_dec best h) as [Hc|Hc]; [|exact Hc].
        apply Qlt_bool_iff in Hc. congruence. }
      rewrite Hassoc, <- Hlen. rewrite Hassoc in Hh, Hle, Hlt, Hbest.
      apply IH.
      * lia.
      * exact Hbest.
      * intros j Hj. rewrite Hlen in Hj.
        destruct (Nat.eq_dec j (length pre)) as [->|Hne].
        -- now rewrite Hh.
        -- apply Hle. lia.
      * exact Hlt.
Qed.

(** [argmax] of a series that is not empty is the position of its first
    greatest value. *)
Lemma argmax_first_max (y : list Q) :
  y <> [] -> exists k, argmax y = Ok k /\ first_max y k.
Proof.
  destruct y as [|h t]; [congruence|]. intros _.
  eexists. split; [reflexivity|].
  apply (argmax_from_first t [h] h 0%nat).
  - simpl. lia.
  - reflexivity.
  - intros j Hj. simpl in Hj. assert (j = 0%nat) by lia. subst. apply Qle_refl.
  - intros j Hj. lia.
Qed.

Lemma nth_app_last (l : list Q) (a : Q) (n : nat) :
  length l = n -> nth n (l ++ [a]) 0 = a.
Proof.
  intros <-. rewrite app_nth2 by lia. now rewrite Nat.sub_diag.
Qed.

Lemma nth_app_keep (l : list Q) (a : Q) (i : nat) :
  (i < length l)%nat -> nth i (l ++ [a]) 0 = nth i l 0.
Proof. intro H. now apply app_nth1. Qed.

Lemma nth_error_app_keep (l : list Q) (a : Q) :
  l <> [] -> nth_error (l ++ [a]) 0 = nth_error l 0.
Proof. destruct l; [congruence|reflexivity]. Qed.

Lemma getitem_last (l : list Q) (n : nat) :
  length l = S n -> getitem l n = Ok (nth n l 0).
Proof.
  intro H. unfold getitem.
  destruct (nth_error l n) as [x|] eqn:E.
  - now rewrite (nth_error_nth l n 0 E).
  - apply nth_error_None in E. lia.
Qed.

(** The loop of [ngauss_guesses] after [m] turns. *)
Lemma guess_loop (u0 : Q) (m : nat) :
  exists g,
    fold_left guess_step (seq 0 m) (Ok ([1], [u0], [1 # 2])) = Ok g
    /\ guesses_length (S m) g
    /\ guesses_start u0 g
    /\ guesses_recur m g.
Proof.
  induction m as [|m IH].
  - eexists. split; [reflexivity|].
    split; [repeat split|]. split; [repeat split|].
    intros i Hi. lia.
  - destruct IH as ([[p u] s] & Hrun & (Lp & Lu & Ls) & (Sp & Su & Ss) & Hrec).
    rewrite seq_S, fold_left_app, Hrun. cbn [fold_left Nat.add].
    unfold guess_step. cbn [bind].
    rewrite (getitem_last p m Lp). cbn [bind].
    rewrite (getitem_last u m Lu). cbn [bind].
    rewrite (getitem_last s m Ls). cbn [bind].
    eexists. split; [reflexivity|].
    split; [|split].
    + unfold guesses_length. rewrite !length_app, Lp, Lu, Ls. simpl. lia.
    + unfold guesses_start.
      rewrite !nth_error_app_keep by (intro Hnil; subst; discriminate).
      auto.
    + intros i Hi.
      destruct (Nat.eq_dec i m) as [->|Hne].
      * rewrite (nth_app_last p _ _ Lp), (nth_app_last u _ _ Lu),
          (nth_app_last s _ _ Ls).
        rewrite (nth_app_keep p), (nth_app_keep u), (nth_app_keep s) by lia.
        split; [reflexivity|]. split; [ring|reflexivity].
      * specialize (Hrec i ltac:(lia)).
        rewrite (nth_app_keep p _ (S i)), (nth_app_keep u _ (S i)),
          (nth_app_keep s _ (S i)) by lia.
        rewrite (nth_app_keep p), (nth_app_keep u), (nth_app_keep s) by lia.
        exact Hrec.
Qed.

(** C6 (as amended).  For a series [y] that is not empty, an array [x]
    that has a cell at the position of the first greatest value of [y],
    and [nGauss >= 1], [ngauss_guesses] returns three arrays of length
    [nGauss]: the amplitudes start at 1 and each is half the one before,
    the means start at [x[argmax y]] and the mean [i + 1] is the mean [i]
    minus [2.2 * (i + 1)], the widths start at 0.5 and each is twice the
    one before. *)
Theorem ngauss_guesses_shape (x y : list Q) (nGauss : Z) :
  y <> [] -> (1 <= nGauss)%Z ->
  exists k, argmax y = Ok k /\ first_max y k
    /\ forall xk, nth_error x k = Some xk ->
         exists g, ngauss_guesses x y nGauss = Ok g
           /\ guesses_length (Z.to_nat nGauss) g
           /\ guesses_start xk g
           /\ guesses_recur (Z.to_nat nGauss - 1) g.
Proof.
  intros Hy Hn.
  destruct (argmax_first_max y Hy) as (k & Hk & Hfirst).
  exists k. split; [exact Hk|]. split; [exact Hfirst|].
  intros xk Hx.
  unfold ngauss_guesses. rewrite Hk. cbn [bind].
  unfold getitem at 1. rewrite Hx. cbn [bind].
  destruct (guess_loop xk (Z.to_nat (nGauss - 1))) as (g & Hrun & Hlen & Hstart & Hrec).
  exists g. split; [exact Hrun|].
  replace (Z.to_nat nGauss) with (S (Z.to_nat (nGauss - 1))) by lia.
  split; [exact Hlen|]. split; [exact Hstart|].
  now rewrite Nat.sub_succ, Nat.sub_0_r.
Qed.

Lemma ngauss_guesses_shape_witness :
  exists k, argmax [0; 5; 2] = Ok k /\ first_max [0; 5; 2] k
    /\ forall xk, nth_error [1; 2; 3; 4] k = Some xk ->
         exists g, ngauss_guesses [1; 2; 3; 4] [0; 5; 2] 3 = Ok g
           /\ guesses_length (Z.to_nat 3) g
           /\ guesses_start xk g
           /\ guesses_recur (Z.to_nat 3 - 1) g.
Proof.
  apply (ngauss_guesses_shape [1; 2; 3; 4] [0; 5; 2] 3); [discriminate|lia].
Defined.

(** C6 (as stated) fails for an [x] without a cell at the position of the
    greatest value of [y]: reading [x[argmax y]] raises. *)
Lemma ngauss_guesses_short_x :
  ([1] : list Q) <> [] /\ (1 <= 1)%Z
  /\ ngauss_guesses [] [1] 1 = Err IndexError.
Proof. repeat split; [discriminate|lia]. Qed.

(** ** load_file *)

Lemma scan_lines_filter (lines : list string) : forall pre,
  map (fun i => nth i (pre ++ lines) EmptyString) (scan_lines lines (length pre))
  = data_lines lines.
Proof.
  induction lines as [|l t IH]; intro pre; [reflexivity|].
  assert (Hassoc : pre ++ l :: t = (pre ++ [l]) ++ t) by (now rewrite <- app_assoc).
  assert (Hlen : S (length pre) = length (pre ++ [l]))
    by (rewrite length_app; simpl; lia).
  cbn [scan_lines]. unfold data_lines. cbn [filter].
  destruct (has_lower l); cbn [negb].
  - rewrite Hassoc, Hlen. apply IH.
  - cbn [map]. f_equal.
    + rewrite app_nth2 by lia. now rewrite Nat.sub_diag.
    + rewrite Hassoc, Hlen. apply IH.
Qed.

Lemma processedFile_data_lines (rawFile : list string) :
  processedFile_of rawFile = map fields (data_lines rawFile).
Proof.
  unfold processedFile_of, lineIndices_of.
  rewrite <- (scan_lines_filter rawFile []). now rewrite map_map.
Qed.

Lemma header_data_length (rawFile : list string) :
  (header_count rawFile + length (data_lines rawFile) = length rawFile)%nat.
Proof.
  unfold header_count, data_lines.
  induction rawFile as [|l t IH]; simpl; [reflexivity|].
  destruct (has_lower l); simpl; lia.
Qed.

Lemma nSweeps_header_count (rawFile : list string) :
  nSweeps_of rawFile = ((Z.of_nat (header_count rawFile) - 1) ÷ 2)%Z.
Proof.
  unfold nSweeps_of. rewrite processedFile_data_lines, length_map.
  pose proof (header_data_length rawFile). f_equal. lia.
Qed.

Lemma mapM_Forall2 {A B : Type} (f : A -> result B) (l : list A) : forall l',
  mapM f l = Ok l' -> Forall2 (fun a b => f a = Ok b) l l'.
Proof.
  induction l as [|a t IH]; simpl; intros l' H.
  - injection H as <-. constructor.
  - destruct (f a) as [b|e] eqn:E; cbn [bind] in H; [|discriminate].
    destruct (mapM f t) as [bs|e]; cbn [bind] in H; [|discriminate].
    injection H as <-. constructor; [exact E|now apply IH].
Qed.

Lemma all_present_some (l : list (option Q)) (qs : list Q) :
  all_present l = Some qs -> l = map Some qs.
Proof.
  revert qs. induction l as [|[q|] t IH]; simpl; intros qs H.
  - injection H as <-. reflexivity.
  - destruct (all_present t) as [qs'|]; [|discriminate].
    injection H as <-. simpl. now rewrite (IH qs' eq_refl).
  - discriminate.
Qed.

Lemma dropna_In (t : list (list (option Q))) (qs : list Q) :
  In qs (dropna t) -> In (map Some qs) t.
Proof.
  induction t as [|l rest IH]; simpl; [tauto|].
  destruct (all_present l) as [qs'|] eqn:E.
  - intros [<-|H]; [left; now apply all_present_some|right; now apply IH].
  - intro H. right. now apply IH.
Qed.

Lemma dropna_length (t : list (list (option Q))) :
  (length (dropna t) <= length t)%nat.
Proof.
  induction t as [|l rest IH]; simpl; [lia|].
  destruct (all_present l); simpl; lia.
Qed.

Lemma max_length_bound (data : list (list string)) (l : list string) :
  In l data -> (length l <= fold_right Nat.max 0%nat (map (@length string) data))%nat.
Proof.
  induction data as [|a t IH]; simpl; [tauto|].
  intros [->|H]; [lia|]. specialize (IH H). lia.
Qed.

(** A line without a missing cell comes from a line of the file with as
    many fields as the table has columns, each of them a number. *)
Lemma padded_line_values (parse : string -> option Q) (ncols : nat)
      (l : list string) (qs : list Q) :
  mapM (to_numeric parse) (pad_line ncols l) = Ok (map Some qs) ->
  (length l <= ncols)%nat ->
  length qs = ncols /\ Forall2 (fun field x => parse field = Some x) l qs.
Proof.
  intros H Hle. apply mapM_Forall2 in H. unfold pad_line in H.
  assert (Hk : (ncols - length l = 0)%nat).
  { destruct (ncols - length l)%nat as [|k] eqn:Ek; [reflexivity|].
    exfalso. simpl in H.
    apply Forall2_app_inv_l in H. destruct H as (l1 & l2 & _ & H2 & Heq).
    inversion H2 as [|? b ? l2' Hb _ Hl2]; subst l2.
    simpl in Hb. injection Hb as <-.
    assert (Hin : In (@None Q) (map Some qs)).
    { rewrite Heq. apply in_or_app. right. now left. }
    apply in_map_iff in Hin. destruct Hin as (q0 & Hq0 & _). discriminate. }
  rewrite Hk in H. simpl in H. rewrite app_nil_r in H.
  assert (Hlen : length l = length qs).
  { apply Forall2_length in H. now rewrite !length_map in H. }
  split; [lia|].
  clear Hk Hle Hlen. revert qs H.
  induction l as [|f t IH]; intros [|q qs] H; simpl in H;
    inversion H as [|? ? ? ? Hhead Htail]; subst; constructor.
  - simpl in Hhead. destruct (String.eqb f EmptyString); [discriminate|].
    destruct (parse f) as [x|]; [|discriminate]. now injection Hhead as ->.
  - now apply IH.
Qed.

Lemma Forall2_In_r {A B : Type} (R : A -> B -> Prop) (l : list A) (l' : list B) (b : B) :
  Forall2 R l l' -> In b l' -> exists a, In a l /\ R a b.
Proof.
  induction 1 as [|a b' l l' Hab _ IH]; simpl; [tauto|].
  intros [<-|Hin].
  - exists a. auto.
  - destruct (IH Hin) as (a' & Ha' & HR). exists a'. auto.
Qed.

(** The table of numbers: no more lines than the file has lines without a
    lowercase letter, all of one width (5 or 7), each made of the numbers
    written in the fields of such a line. *)
Lemma numeric_table_values (parse : string -> option Q) (rawFile : list string)
      (t : list (list Q)) :
  numeric_table parse rawFile = Ok t ->
  (length t <= length (data_lines rawFile))%nat
  /\ exists ncols, (ncols = 5 \/ ncols = 7)%nat
       /\ forall vals, In vals t ->
            length vals = ncols
            /\ exists line, In line (data_lines rawFile)
                            /\ values_of_line parse line vals.
Proof.
  unfold numeric_table. rewrite processedFile_data_lines.
  destruct (map fields (data_lines rawFile)) as [|first rest] eqn:Edata;
    cbn [bind]; [discriminate|].
  set (ncols := if (length first =? 5)%nat then 5%nat else 7%nat).
  unfold frame_of_lines.
  destruct (fold_right Nat.max 0%nat (map (@length string) (first :: rest)) =? ncols)%nat
    eqn:Ew; cbn [bind]; [|discriminate].
  apply Nat.eqb_eq in Ew.
  destruct (mapM (mapM (to_numeric parse)) (map (pad_line ncols) (first :: rest)))
    as [nums|e] eqn:Enum; cbn [bind]; [|discriminate].
  intro H. injection H as <-.
  pose proof (mapM_Forall2 _ _ _ Enum) as Hall.
  split.
  - pose proof (dropna_length nums) as Hd.
    apply Forall2_length in Hall. rewrite length_map, <- Edata, length_map in Hall.
    lia.
  - exists ncols. split.
    { unfold ncols. destruct (length first =? 5)%nat; auto. }
    intros vals Hin. apply dropna_In in Hin.
    destruct (Forall2_In_r _ _ _ _ Hall Hin) as (c & Hc & Hrun).
    apply in_map_iff in Hc. destruct Hc as (l & <- & Hl).
    assert (Hle : (length l <= ncols)%nat).
    { rewrite <- Ew. now apply max_length_bound. }
    destruct (padded_line_values parse ncols l vals Hrun Hle) as [Hlen Hvals].
    split; [exact Hlen|].
    rewrite <- Edata in Hl. apply in_map_iff in Hl.
    destruct Hl as (line & <- & Hline). now exists line.
Qed.

Lemma length_blocks (f : nat -> Z) (m : nat) (l : list nat) :
  length (flat_map (fun k => repeat (f k) m) l) = (length l * m)%nat.
Proof.
  induction l as [|a t IH]; simpl; [reflexivity|].
  now rewrite length_app, repeat_length, IH.
Qed.

Lemma nth_error_blocks (f : nat -> Z) (m : nat) : forall n a j,
  (j < n * m)%nat ->
  nth_error (flat_map (fun k => repeat (f k) m) (seq a n)) j
  = Some (f (a + j / m)%nat).
Proof.
  induction n as [|n IH]; intros a j Hj; [simpl in Hj; lia|].
  assert (Hm : m <> 0%nat) by (intro; subst; lia).
  cbn [seq flat_map].
  destruct (Nat.lt_ge_cases j m) as [Hlt|Hge].
  - rewrite nth_error_app1 by (rewrite repeat_length; lia).
    rewrite Nat.div_small by lia. rewrite Nat.add_0_r.
    now apply nth_error_repeat.
  - rewrite nth_error_app2 by (rewrite repeat_length; lia).
    rewrite repeat_length, IH by (simpl in Hj; lia).
    f_equal. f_equal.
    replace j with (1 * m + (j - m))%nat at 2 by lia.
    rewrite Nat.div_add_l by exact Hm. lia.
Qed.

Lemma sweep_labels_divisible (n : Z) (len : nat) :
  (0 < n)%Z -> (Z.of_nat len mod n = 0)%Z ->
  exists labels,
    sweep_labels n len = Ok labels
    /\ length labels = len
    /\ forall j, (j < len)%nat ->
         nth_error labels j = Some (block_label (len / Z.to_nat n) j).
Proof.
  intros Hn Hmod. unfold sweep_labels.
  destruct (n =? 0)%Z eqn:E; [apply Z.eqb_eq in E; lia|].
  assert (Hq : Z.to_nat (Z.of_nat len ÷ n) = (len / Z.to_nat n)%nat).
  { rewrite Z.quot_div_nonneg by lia.
    rewrite <- (Z2Nat.id n) at 1 by lia.
    rewrite <- Nat2Z.inj_div. apply Nat2Z.id. }
  assert (Hlen : (Z.to_nat n * (len / Z.to_nat n) = len)%nat).
  { apply Nat2Z.inj. rewrite Nat2Z.inj_mul, Nat2Z.inj_div, Z2Nat.id by lia.
    apply Z.div_exact in Hmod; lia. }
  eexists. split; [reflexivity|]. rewrite Hq. split.
  - now rewrite length_blocks, length_seq.
  - intros j Hj. rewrite nth_error_blocks by lia. reflexivity.
Qed.

Lemma lines_of_table (t : list (list Q)) : forall labels,
  length labels = length t ->
  (forall vals, In vals t -> length vals = 5%nat \/ length vals = 7%nat) ->
  exists df,
    mapM line_of (combine t labels) = Ok df
    /\ map c_sweep df = labels
    /\ Forall2 converted t (map convert_units df).
Proof.
  induction t as [|vals t IH]; intros [|sw labels] Hlen Hw; simpl in Hlen;
    try discriminate.
  - exists []. repeat split. constructor.
  - destruct (IH labels) as (df & Hrun & Hsw & Hconv).
    { lia. }
    { intros v Hv. apply Hw. now right. }
    cbn [combine mapM]. rewrite Hrun.
    destruct (Hw vals (or_introl eq_refl)) as [H5|H7].
    + destruct vals as [|a [|b [|c [|d [|e [|f r]]]]]]; try discriminate H5.
      eexists. cbn [line_of bind]. split; [reflexivity|].
      cbn [map c_sweep]. split; [now rewrite Hsw|].
      constructor; [|exact Hconv]. repeat split.
    + destruct vals as [|a [|b [|c [|d [|e [|f [|g [|x r]]]]]]]]; try discriminate H7.
      eexists. cbn [line_of bind]. split; [reflexivity|].
      cbn [map c_sweep]. split; [now rewrite Hsw|].
      constructor; [|exact Hconv]. repeat split.
Qed.

Lemma all_present_map (qs : list Q) : all_present (map Some qs) = Some qs.
Proof. induction qs as [|q t IH]; simpl; [reflexivity|now rewrite IH]. Qed.

Lemma to_numeric_fields (parse : string -> option Q) (l : list string) : forall c,
  forallb (fun f => negb (String.eqb f EmptyString)) l = true ->
  mapM (to_numeric parse) (map Some l) = Ok c ->
  exists qs, c = map Some qs /\ Forall2 (fun f x => parse f = Some x) l qs.
Proof.
  induction l as [|f t IH]; intros c Hne H.
  - simpl in H. injection H as <-. exists []. split; [reflexivity|constructor].
  - cbn [forallb] in Hne. apply andb_true_iff in Hne. destruct Hne as [Hf Ht].
    apply negb_true_iff in Hf.
    cbn [map mapM to_numeric] in H. rewrite Hf in H.
    destruct (parse f) as [q|] eqn:Ef; cbn [bind] in H; [|discriminate].
    destruct (mapM (to_numeric parse) (map Some t)) as [c'|e] eqn:Et;
      cbn [bind] in H; [|discriminate].
    injection H as <-.
    destruct (IH c' Ht eq_refl) as (qs & -> & Hqs).
    exists (q :: qs). split; [reflexivity|now constructor].
Qed.

(** When every kept line is complete, no line is dropped: the table has
    one line of numbers for each kept line of the file, in order. *)
Lemma complete_rows (parse : string -> option Q) (n : nat) (dl : list string) :
  forall nums,
  (forall line, In line dl -> complete_line n (fields line) = true) ->
  mapM (mapM (to_numeric parse)) (map (pad_line n) (map fields dl)) = Ok nums ->
  Forall2 (values_of_line parse) dl (dropna nums).
Proof.
  induction dl as [|line rest IH]; intros nums Hc H.
  - simpl in H. injection H as <-. constructor.
  - cbn [map mapM] in H.
    pose proof (Hc line (or_introl eq_refl)) as Hcl.
    apply andb_true_iff in Hcl. destruct Hcl as [Hlen Hne].
    apply Nat.eqb_eq in Hlen.
    unfold pad_line at 1 in H. rewrite Hlen, Nat.sub_diag in H.
    cbn [repeat] in H. rewrite app_nil_r in H.
    destruct (mapM (to_numeric parse) (map Some (fields line))) as [c|e] eqn:Ec;
      cbn [bind] in H; [|discriminate].
    destruct (mapM (mapM (to_numeric parse)) (map (pad_line n) (map fields rest)))
      as [cs|e] eqn:Ecs; cbn [bind] in H; [|discriminate].
    injection H as <-.
    destruct (to_numeric_fields parse _ c Hne Ec) as (qs & -> & Hqs).
    cbn [dropna]. rewrite all_present_map.
    constructor; [exact Hqs|].
    apply IH; [|reflexivity]. intros l Hl. apply Hc. now right.
Qed.

Lemma numeric_table_complete (parse : string -> option Q) (rawFile : list string)
      (t : list (list Q)) (n : nat) :
  numeric_table parse rawFile = Ok t ->
  (n = 5 \/ n = 7)%nat ->
  (forall line, In line (data_lines rawFile) -> complete_line n (fields line) = true) ->
  Forall2 (values_of_line parse) (data_lines rawFile) t.
Proof.
  intros H Hn Hc. unfold numeric_table in H.
  rewrite processedFile_data_lines in H.
  destruct (data_lines rawFile) as [|line0 rest] eqn:Edl.
  - simpl in H. discriminate.
  - cbn [map bind] in H.
    assert (Hlen0 : length (fields line0) = n).
    { pose proof (Hc line0 (or_introl eq_refl)) as Hcl.
      apply andb_true_iff in Hcl. destruct Hcl as [Hl _].
      now apply Nat.eqb_eq in Hl. }
    assert (Hncols : (if (length (fields line0) =? 5)%nat then 5%nat else 7%nat) = n).
    { rewrite Hlen0. destruct Hn as [-> | ->]; reflexivity. }
    rewrite Hncols in H. unfold frame_of_lines in H.
    destruct (fold_right Nat.max 0%nat
                (map (@length string) (fields line0 :: map fields rest)) =? n)%nat;
      cbn [bind] in H; [|discriminate].
    change (fields line0 :: map fields rest) with (map fields (line0 :: rest)) in H.
    destruct (mapM (mapM (to_numeric parse))
                (map (pad_line n) (map fields (line0 :: rest)))) as [nums|e] eqn:Enum;
      cbn [bind] in H; [|discriminate].
    injection H as <-.
    now apply (complete_rows parse n (line0 :: rest) nums Hc).
Qed.

Lemma with_sweeps_blocks (t : list (list Q)) (n : Z) :
  (forall vals, In vals t -> length vals = 5%nat \/ length vals = 7%nat) ->
  (0 < n)%Z -> (Z.of_nat (length t) mod n = 0)%Z ->
  exists df,
    with_sweeps t n = Ok df
    /\ length df = length t
    /\ (forall j, (j < length t)%nat ->
          nth_error (map c_sweep df) j
          = Some (block_label (length t / Z.to_nat n) j)).
Proof.
  intros Hw Hn Hmod.
  destruct (sweep_labels_divisible n (length t) Hn Hmod) as (labels & Hlab & Hlen & Hnth).
  destruct (lines_of_table t labels Hlen Hw) as (df & Hrun & Hsw & _).
  exists df. unfold with_sweeps. rewrite Hlab. cbn [bind].
  rewrite Hlen, Nat.eqb_refl. split; [exact Hrun|]. split.
  - rewrite <- Hlen, <- Hsw. now rewrite length_map.
  - intros j Hj. rewrite Hsw. now apply Hnth.
Qed.

Lemma table_widths (parse : string -> option Q) (rawFile : list string)
      (t : list (list Q)) :
  numeric_table parse rawFile = Ok t ->
  forall vals, In vals t -> length vals = 5%nat \/ length vals = 7%nat.
Proof.
  intros H vals Hin.
  destruct (numeric_table_values parse rawFile t H) as (_ & ncols & Hn & Hall).
  destruct (Hall vals Hin) as [-> _]. exact Hn.
Qed.

(** C4.  [load_file] keeps, in the order of the file, exactly the lines
    without a lowercase letter (and the table has one line for each of
    them when they all are complete lines of numbers); with [H] header
    lines it takes [(H - 1) / 2] for the number of sweeps (exactly so when
    [H] is odd); and when the kept lines give a table of numbers of which
    the number of lines is a multiple of the number of sweeps, the table is
    returned and its line [j] belongs to the sweep [j / m + 1], [m] being
    the common length of the blocks. *)
Theorem load_file_sweeps (parse : string -> option Q) (content : string) :
  processedFile_of (rawFile_of content)
  = map fields (data_lines (rawFile_of content))
  /\ nSweeps_of (rawFile_of content)
     = ((Z.of_nat (header_count (rawFile_of content)) - 1) ÷ 2)%Z
  /\ (Nat.odd (header_count (rawFile_of content)) = true ->
      (2 * nSweeps_of (rawFile_of content) + 1)%Z
      = Z.of_nat (header_count (rawFile_of content)))
  /\ forall t, numeric_table parse (rawFile_of content) = Ok t ->
       (length t <= length (data_lines (rawFile_of content)))%nat
       /\ (forall n, (n = 5 \/ n = 7)%nat ->
             (forall line, In line (data_lines (rawFile_of content)) ->
                           complete_line n (fields line) = true) ->
             Forall2 (values_of_line parse) (data_lines (rawFile_of content)) t)
       /\ ((0 < nSweeps_of (rawFile_of content))%Z ->
           (Z.of_nat (length t) mod nSweeps_of (rawFile_of content) = 0)%Z ->
           exists df,
             load_file parse content = Ok df
             /\ length df = length t
             /\ forall j, (j < length df)%nat ->
                  nth_error (map c_sweep df) j
                  = Some (block_label
                            (length t / Z.to_nat (nSweeps_of (rawFile_of content))) j)).
Proof.
  split; [apply processedFile_data_lines|].
  split; [apply nSweeps_header_count|].
  split.
  - intro Hodd. rewrite nSweeps_header_count.
    apply Nat.odd_spec in Hodd. destruct Hodd as (m & Hm). rewrite Hm.
    replace (Z.of_nat (2 * m + 1) - 1)%Z with (Z.of_nat m * 2)%Z by lia.
    rewrite Z.quot_mul by lia. lia.
  - intros t Ht. split; [|split].
    + now destruct (numeric_table_values parse _ t Ht) as [Hle _].
    + intros n Hn Hc. now apply (numeric_table_complete parse _ t n).
    + intros Hn Hmod.
      destruct (with_sweeps_blocks t _ (table_widths parse _ t Ht) Hn Hmod)
        as (df & Hrun & Hlen & Hnth).
      exists (map convert_units df). unfold load_file. rewrite Ht. cbn [bind].
      rewrite Hrun. cbn [bind]. split; [reflexivity|].
      rewrite length_map. split; [exact Hlen|].
      intros j Hj. rewrite map_map. cbn [convert_units c_sweep].
      apply Hnth. lia.
Qed.

Lemma load_file_sweeps_witness :
  exists df,
    load_file read_decimal two_sweep_file = Ok df
    /\ length df = 4%nat
    /\ forall j, (j < length df)%nat ->
         nth_error (map c_sweep df) j = Some (block_label 2 j).
Proof.
  destruct (load_file_sweeps read_decimal two_sweep_file) as (_ & _ & _ & H).
  assert (Ht : exists t,
             numeric_table read_decimal (rawFile_of two_sweep_file) = Ok t
             /\ length t = 4%nat) by (eexists; split; reflexivity).
  destruct Ht as (t & Ht & Hlen).
  destruct (H t Ht) as (_ & _ & H').
  change (nSweeps_of (rawFile_of two_sweep_file)) with 2%Z in H'.
  rewrite Hlen in H'.
  apply H'; reflexivity.
Defined.

(** *** The values of the table, read off the file *)

Lemma mapM_app {A B : Type} (f : A -> result B) (l1 l2 : list A) (c : list B) :
  mapM f (l1 ++ l2) = Ok c ->
  exists c1 c2, mapM f l1 = Ok c1 /\ mapM f l2 = Ok c2 /\ c = c1 ++ c2.
Proof.
  revert c. induction l1 as [|a t IH]; intros c H.
  - exists [], c. auto.
  - cbn [app mapM] in H. destruct (f a) as [b|e] eqn:E; cbn [bind] in H;
      [|discriminate].
    destruct (mapM f (t ++ l2)) as [c'|e] eqn:Et; cbn [bind] in H; [|discriminate].
    injection H as <-.
    destruct (IH c' eq_refl) as (c1 & c2 & H1 & H2 & ->).
    exists (b :: c1), c2. cbn [mapM]. rewrite E, H1. auto.
Qed.

Lemma all_present_missing (c1 r : list (option Q)) :
  all_present (c1 ++ None :: r) = None.
Proof.
  induction c1 as [|[q|] t IH]; simpl; [reflexivity| |reflexivity].
  now rewrite IH.
Qed.

Lemma mapM_missing (parse : string -> option Q) (k : nat) :
  mapM (to_numeric parse) (repeat None k) = Ok (repeat None k).
Proof. induction k as [|k IH]; simpl; [reflexivity|]. now rewrite IH. Qed.

(** The cells of the fields of a line: all present exactly when no field
    is empty, and then they hold the numbers of the fields. *)
Lemma field_cells (parse : string -> option Q) (l : list string) : forall c,
  mapM (to_numeric parse) (map Some l) = Ok c ->
  all_present c
  = if forallb (fun f => negb (String.eqb f EmptyString)) l
    then parse_all parse l else None.
Proof.
  induction l as [|f t IH]; intros c H.
  - simpl in H. injection H as <-. reflexivity.
  - cbn [map mapM to_numeric] in H. cbn [forallb parse_all].
    destruct (String.eqb f EmptyString) eqn:Ef; cbn [bind negb andb] in H |- *.
    + destruct (mapM (to_numeric parse) (map Some t)) as [c'|e]; cbn [bind] in H;
        [|discriminate].
      injection H as <-. reflexivity.
    + destruct (parse f) as [q|]; cbn [bind] in H; [|discriminate].
      destruct (mapM (to_numeric parse) (map Some t)) as [c'|e] eqn:Et;
        cbn [bind] in H; [|discriminate].
      injection H as <-. cbn [all_present]. rewrite (IH c' eq_refl).
      destruct (forallb (fun f0 => negb (String.eqb f0 EmptyString)) t);
        [|reflexivity].
      destruct (parse_all parse t); reflexivity.
Qed.

(** A line of the file is kept by [dropna] exactly when it is complete,
    and then with the numbers of its fields. *)
Lemma padded_line_kept (parse : string -> option Q) (n : nat) (l : list string)
      (c : list (option Q)) :
  (length l <= n)%nat ->
  mapM (to_numeric parse) (pad_line n l) = Ok c ->
  all_present c = if complete_line n l then parse_all parse l else None.
Proof.
  intros Hle H. unfold pad_line in H.
  apply mapM_app in H. destruct H as (c1 & c2 & H1 & H2 & ->).
  rewrite mapM_missing in H2. injection H2 as <-.
  unfold complete_line.
  destruct (length l =? n)%nat eqn:E.
  - apply Nat.eqb_eq in E. rewrite E, Nat.sub_diag. cbn [repeat andb].
    rewrite app_nil_r. now apply field_cells.
  - apply Nat.eqb_neq in E. cbn [andb].
    destruct (n - length l)%nat as [|k] eqn:Ek; [lia|].
    cbn [repeat]. apply all_present_missing.
Qed.

Lemma dropna_file_values (parse : string -> option Q) (n : nat) (dl : list string) :
  forall nums,
  (forall line, In line dl -> (length (fields line) <= n)%nat) ->
  mapM (mapM (to_numeric parse)) (map (pad_line n) (map fields dl)) = Ok nums ->
  dropna nums = file_values parse n dl.
Proof.
  induction dl as [|line rest IH]; intros nums Hle H.
  - simpl in H. injection H as <-. reflexivity.
  - cbn [map mapM] in H.
    destruct (mapM (to_numeric parse) (pad_line n (fields line))) as [c|e] eqn:Ec;
      cbn [bind] in H; [|discriminate].
    destruct (mapM (mapM (to_numeric parse)) (map (pad_line n) (map fields rest)))
      as [cs|e] eqn:Ecs; cbn [bind] in H; [|discriminate].
    injection H as <-.
    unfold file_values. cbn [dropna flat_map]. unfold file_row at 1.
    rewrite (padded_line_kept parse n (fields line) c
               (Hle line (or_introl eq_refl)) Ec).
    fold (file_values parse n rest).
    rewrite <- (IH cs) by (try reflexivity; intros l Hl; apply Hle; now right).
    destruct (complete_line n (fields line)); [|reflexivity].
    destruct (parse_all parse (fields line)); reflexivity.
Qed.

(** The table of numbers is what the text of the file says: the numbers
    of the complete kept lines, in the order of the file. *)
Lemma numeric_table_file (parse : string -> option Q) (rawFile : list string)
      (t : list (list Q)) :
  numeric_table parse rawFile = Ok t ->
  t = file_values parse (file_width (data_lines rawFile)) (data_lines rawFile).
Proof.
  unfold numeric_table. rewrite processedFile_data_lines.
  destruct (data_lines rawFile) as [|line0 rest] eqn:Edl;
    cbn [map bind]; [discriminate|].
  change (if (length (fields line0) =? 5)%nat then 5%nat else 7%nat)
    with (file_width (line0 :: rest)).
  set (n := file_width (line0 :: rest)).
  unfold frame_of_lines.
  destruct (fold_right Nat.max 0%nat
              (map (@length string) (fields line0 :: map fields rest)) =? n)%nat
    eqn:Ew; cbn [bind]; [|discriminate].
  apply Nat.eqb_eq in Ew.
  change (fields line0 :: map fields rest) with (map fields (line0 :: rest)) in *.
  destruct (mapM (mapM (to_numeric parse)) (map (pad_line n) (map fields (line0 :: rest))))
    as [nums|e] eqn:Enum; cbn [bind]; [|discriminate].
  intro H. injection H as <-.
  apply (dropna_file_values parse n (line0 :: rest) nums); [|exact Enum].
  intros line Hline. rewrite <- Ew. apply max_length_bound. now apply in_map.
Qed.

(** C5.  The table returned by [load_file] holds, line for line and in the
    order of the file, the numbers written in the fields of the complete
    kept lines of the file, in these units: [p] is the number divided by
    0.02, [ti] and [tp] are the numbers times 1000, [i] is the number times
    1e12, and [index] (and [tv], [v] when the file has them) are the
    numbers as written. *)
Theorem load_file_units (parse : string -> option Q) (content : string)
        (df : DataFrame) :
  load_file parse content = Ok df ->
  Forall2 converted
          (file_values parse (file_width (data_lines (rawFile_of content)))
                       (data_lines (rawFile_of content)))
          df.
Proof.
  unfold load_file.
  destruct (numeric_table parse (rawFile_of content)) as [t|e] eqn:Ht;
    cbn [bind]; [|discriminate].
  unfold with_sweeps.
  destruct (sweep_labels (nSweeps_of (rawFile_of content)) (length t))
    as [labels|e]; cbn [bind]; [|discriminate].
  destruct (length labels =? length t)%nat eqn:Elen; [|discriminate].
  apply Nat.eqb_eq in Elen.
  destruct (lines_of_table t labels Elen (table_widths parse _ t Ht))
    as (df0 & Hrun & _ & Hconv).
  rewrite Hrun. cbn [bind]. intro H. injection H as <-.
  now rewrite <- (numeric_table_file parse _ t Ht).
Qed.

Lemma load_file_units_witness :
  file_values read_decimal
              (file_width (data_lines (rawFile_of two_sweep_file)))
              (data_lines (rawFile_of two_sweep_file))
  = [[0; 0 # 10; -2; 0 # 10; -5 # 10]; [1; 25 # 100; -4; 25 # 100; -5 # 10];
     [0; 0 # 10; -6; 0 # 10; -1]; [1; 25 # 100; -8; 25 # 100; -1]]
  /\ exists df,
       load_file read_decimal two_sweep_file = Ok df
       /\ Forall2 converted
                  [[0; 0 # 10; -2; 0 # 10; -5 # 10];
                   [1; 25 # 100; -4; 25 # 100; -5 # 10];
                   [0; 0 # 10; -6; 0 # 10; -1];
                   [1; 25 # 100; -8; 25 # 100; -1]]
                  df.
Proof.
  split; [reflexivity|].
  assert (Hrun : exists df, load_file read_decimal two_sweep_file = Ok df)
    by (eexists; reflexivity).
  destruct Hrun as (df & Hrun). exists df. split; [exact Hrun|].
  exact (load_file_units read_decimal two_sweep_file df Hrun).
Defined.

(* ================================================================== *)
(** * Further properties *)

(** ** baseline_subtract on any table *)

Lemma rows_of_sweep_nil (ks : list Z) :
  flat_map (fun k => rows_of_sweep k []) ks = [].
Proof. induction ks as [|k t IH]; simpl; [reflexivity|exact IH]. Qed.

Lemma regroup_insert (r : row) (t : DataFrame) (ks : list Z) :
  NoDup ks -> In (c_sweep r) ks ->
  Permutation (flat_map (fun k => rows_of_sweep k (r :: t)) ks)
              (r :: flat_map (fun k => rows_of_sweep k t) ks).
Proof.
  induction ks as [|a ks IH]; intros Hnd Hin; [destruct Hin|].
  inversion Hnd as [|? ? Hnotin Hnd']; subst.
  cbn [flat_map].
  destruct (Z.eq_dec (c_sweep r) a) as [<-|Hne].
  - rewrite rows_of_sweep_cons_eq, flat_map_rows_skip by exact Hnotin.
    apply Permutation_refl.
  - rewrite rows_of_sweep_cons_neq by exact Hne.
    destruct Hin as [Hin|Hin]; [congruence|].
    eapply Permutation_trans.
    + apply Permutation_app_head. apply IH; assumption.
    + apply Permutation_sym, Permutation_middle.
Qed.

Lemma regroup_perm (df : DataFrame) (ks : list Z) :
  NoDup ks -> (forall r, In r df -> In (c_sweep r) ks) ->
  Permutation (flat_map (fun k => rows_of_sweep k df) ks) df.
Proof.
  intros Hnd. induction df as [|r t IH]; intro Hall.
  - rewrite rows_of_sweep_nil. constructor.
  - eapply Permutation_trans.
    + apply regroup_insert; [exact Hnd|]. apply Hall. now left.
    + apply perm_skip. apply IH. intros x Hx. apply Hall. now right.
Qed.

(** Regrouping by sweep only reorders the lines. *)
Lemma sweep_sorted_perm (df : DataFrame) : Permutation (sweep_sorted df) df.
Proof.
  apply regroup_perm.
  - apply sorted_NoDup, group_keys_sorted.
  - intros r Hr. apply group_keys_In. now apply in_map.
Qed.

Lemma ascending_intro (a : Z) (l : list Z) :
  Forall (Z.le a) l -> ascending l = true -> ascending (a :: l) = true.
Proof.
  destruct l as [|b t]; [reflexivity|].
  intros Hall Hasc. inversion Hall as [|? ? Hab _]; subst.
  cbn [ascending]. apply andb_true_iff. split; [now apply Z.leb_le|exact Hasc].
Qed.

Lemma ascending_app (l1 l2 : list Z) :
  ascending l1 = true -> ascending l2 = true ->
  (forall a b, In a l1 -> In b l2 -> (a <= b)%Z) ->
  ascending (l1 ++ l2) = true.
Proof.
  induction l1 as [|a t IH]; intros H1 H2 Hcross; [exact H2|].
  apply ascending_cons in H1. destruct H1 as [Hall Ht].
  change ((a :: t) ++ l2) with (a :: (t ++ l2)). apply ascending_intro.
  - apply Forall_app. split; [exact Hall|].
    apply Forall_forall. intros b Hb. apply Hcross; [now left|exact Hb].
  - apply IH; [exact Ht|exact H2|]. intros x y Hx Hy. apply Hcross; [now right|exact Hy].
Qed.

Lemma ascending_const (k : Z) (l : list Z) :
  (forall x, In x l -> x = k) -> ascending l = true.
Proof.
  induction l as [|a t IH]; intro H; [reflexivity|].
  apply ascending_intro.
  - apply Forall_forall. intros x Hx.
    rewrite (H a (or_introl eq_refl)), (H x (or_intror Hx)). lia.
  - apply IH. intros x Hx. apply H. now right.
Qed.

Lemma regroup_ascending (df : DataFrame) (ks : list Z) :
  StronglySorted Z.lt ks ->
  ascending (map c_sweep (flat_map (fun k => rows_of_sweep k df) ks)) = true.
Proof.
  induction 1 as [|k ks Hs IH Hlt]; [reflexivity|].
  cbn [flat_map]. rewrite map_app. apply ascending_app.
  - apply (ascending_const k). intros x Hx.
    apply in_map_iff in Hx. destruct Hx as (r & <- & Hr).
    now apply rows_of_sweep_In in Hr.
  - exact IH.
  - intros a b Ha Hb.
    apply in_map_iff in Ha. destruct Ha as (r & <- & Hr).
    apply rows_of_sweep_In in Hr. destruct Hr as [_ ->].
    apply in_map_iff in Hb. destruct Hb as (r' & <- & Hr').
    apply in_flat_map in Hr'. destruct Hr' as (k' & Hk' & Hr').
    apply rows_of_sweep_In in Hr'. destruct Hr' as [_ ->].
    rewrite Forall_forall in Hlt. specialize (Hlt _ Hk'). lia.
Qed.

Lemma sweep_sorted_ascending (df : DataFrame) :
  sweeps_ascending (sweep_sorted df) = true.
Proof. apply regroup_ascending, group_keys_sorted. Qed.

(** The values that [baseline_subtract] stores, in the order in which it
    stores them. *)
Lemma baseline_subtract_values (df : DataFrame) (w : window) :
  every_sweep_in_window df w = true ->
  baseline_subtract df w
  = assign_i df (map (fun r => c_i r - window_mean df w (c_sweep r)) (sweep_sorted df)).
Proof.
  intro Hall. unfold baseline_subtract. rewrite (iblsub_ok df w Hall). cbn [bind].
  rewrite (concat_group_values df) by auto.
  unfold groupby_sweep at 1. now rewrite groups_rows.
Qed.

Lemma assign_i_stored (df : DataFrame) : forall vals,
  length vals = length df ->
  exists df', assign_i df vals = Ok df'
              /\ length df' = length df
              /\ map c_i df' = vals.
Proof.
  intros vals Hlen. unfold assign_i. rewrite Hlen, Nat.eqb_refl.
  eexists. split; [reflexivity|].
  rewrite length_map, length_combine, Hlen, Nat.min_id. split; [reflexivity|].
  rewrite map_map. cbn [set_i c_i].
  revert vals Hlen. induction df as [|r t IH]; intros [|x vals] Hlen;
    simpl in *; try discriminate; [reflexivity|].
  f_equal. apply IH. lia.
Qed.

Lemma series_get_error (s : list (Z * Q)) (k : Z) (e : exn) :
  series_get s k = Err e -> e = KeyError.
Proof.
  induction s as [|[k' x] t IH]; simpl; intro H.
  - now injection H as <-.
  - destruct (k' =? k)%Z; [discriminate|now apply IH].
Qed.

Lemma mapM_first_error {A B : Type} (f : A -> result B) (l : list A) (e0 : exn) :
  (forall a e, In a l -> f a = Err e -> e = e0) ->
  (exists a, In a l /\ is_ok (f a) = false) ->
  mapM f l = Err e0.
Proof.
  induction l as [|a t IH]; intros Hall (b & Hb & Hbad); [destruct Hb|].
  cbn [mapM]. destruct (f a) as [y|e] eqn:E; cbn [bind].
  - destruct Hb as [->|Hb]; [rewrite E in Hbad; discriminate|].
    rewrite IH; [reflexivity| |now exists b].
    intros x e Hx. apply Hall. now right.
  - now rewrite (Hall a e (or_introl eq_refl) E).
Qed.

(** X1.  [baseline_subtract] raises [KeyError] when some sweep of the table
    has no line in the window, and returns a table in every other case:
    the order of the lines never makes it raise. *)
Theorem baseline_subtract_missing_sweep (df : DataFrame) (w : window) :
  (every_sweep_in_window df w = false -> baseline_subtract df w = Err KeyError)
  /\ (every_sweep_in_window df w = true ->
      exists df', baseline_subtract df w = Ok df' /\ length df' = length df).
Proof.
  split.
  - intro H. apply forallb_false in H. destruct H as (r & Hr & Hnone).
    unfold baseline_subtract, iblsub.
    rewrite (mapM_first_error _ _ KeyError); [reflexivity| |].
    + intros g e _ Hg.
      destruct (series_get (baselines df w) (g_name g)) as [b|e'] eqn:E;
        cbn [bind] in Hg; [discriminate|].
      injection Hg as <-. now apply (series_get_error _ _ _ E).
    + destruct (sweep_has_group df r Hr) as (g & Hg & Hn).
      exists g. split; [exact Hg|].
      rewrite Hn, baselines_window.
      destruct (window_rows df w (c_sweep r)) as [|r' l] eqn:E; [reflexivity|].
      exfalso.
      assert (Hin : In r' (window_rows df w (c_sweep r))) by (rewrite E; now left).
      unfold window_rows in Hin. apply filter_In in Hin. destruct Hin as [Hin Hc].
      assert (Hex : existsb (fun r'0 => (c_sweep r'0 =? c_sweep r)%Z && in_window w r'0) df = true).
      { apply existsb_exists. now exists r'. }
      congruence.
  - intro H. rewrite (baseline_subtract_values df w H).
    destruct (assign_i_stored df
                (map (fun r => c_i r - window_mean df w (c_sweep r)) (sweep_sorted df)))
      as (df' & Hrun & Hlen & _).
    { rewrite length_map. apply Permutation_length, sweep_sorted_perm. }
    now exists df'.
Qed.

Lemma baseline_subtract_missing_sweep_witness :
  baseline_subtract [sample 1 0 20 1; sample 2 7 10 1] (0, 5) = Err KeyError.
Proof.
  apply (proj1 (baseline_subtract_missing_sweep
                  [sample 1 0 20 1; sample 2 7 10 1] (0, 5))).
  reflexivity.
Defined.

(** X2.  On any table in which every sweep has a line in the window,
    whatever the order of its lines, [baseline_subtract] stores in the
    line [j] the corrected value of the line [j] of the table regrouped by
    sweep (the sweeps in increasing order, each with its lines in the order
    of the table); the regrouped table is a rearrangement of the table. *)
Theorem baseline_subtract_regrouped (df : DataFrame) (w : window) :
  every_sweep_in_window df w = true ->
  exists df',
    baseline_subtract df w = Ok df'
    /\ length df' = length df
    /\ map c_i df'
       = map (fun r => c_i r - window_mean df w (c_sweep r)) (sweep_sorted df)
    /\ Permutation (sweep_sorted df) df
    /\ sweeps_ascending (sweep_sorted df) = true.
Proof.
  intro H. rewrite (baseline_subtract_values df w H).
  destruct (assign_i_stored df
              (map (fun r => c_i r - window_mean df w (c_sweep r)) (sweep_sorted df)))
    as (df' & Hrun & Hlen & Hvals).
  { rewrite length_map. apply Permutation_length, sweep_sorted_perm. }
  exists df'. repeat split; try assumption.
  - apply sweep_sorted_perm.
  - apply sweep_sorted_ascending.
Qed.

Lemma baseline_subtract_regrouped_witness :
  exists df',
    baseline_subtract interleaved (0, 1) = Ok df'
    /\ length df' = length interleaved
    /\ map c_i df'
       = map (fun r => c_i r - window_mean interleaved (0, 1) (c_sweep r))
             (sweep_sorted interleaved)
    /\ Permutation (sweep_sorted interleaved) interleaved
    /\ sweeps_ascending (sweep_sorted interleaved) = true.
Proof. apply (baseline_subtract_regrouped interleaved (0, 1)). reflexivity. Defined.

(** ** Tables ordered by sweep *)

Lemma baseline_subtract_sorted (df : DataFrame) (w : window) :
  sweeps_ascending df = true -> every_sweep_in_window df w = true ->
  baseline_subtract df w = Ok (baseline_subtracted df w).
Proof.
  intros Hasc Hall. rewrite (baseline_subtract_values df w Hall).
  unfold sweep_sorted. rewrite (groups_of_ascending df Hasc).
  apply assign_i_map.
Qed.

(** ** The tables of sweep_summary *)

Lemma setitem_length (arr : list Q) (j : Z) (sel arr' : list Q) :
  setitem arr j sel = Ok arr' -> length arr' = length arr.
Proof.
  unfold setitem. destruct (array_index (length arr) j) as [k|e]; cbn [bind];
    [|discriminate].
  destruct sel as [|x [|y l]]; try discriminate.
  intro H. injection H as <-. apply length_list_set.
Qed.

Lemma thalf_fold_length (gs : list group) : forall arr0 arr,
  fold_left thalf_step gs (Ok arr0) = Ok arr -> length arr = length arr0.
Proof.
  induction gs as [|g t IH]; intros arr0 arr H.
  - simpl in H. now injection H as <-.
  - cbn [fold_left] in H.
    destruct (thalf_step (Ok arr0) g) as [arr1|e] eqn:E.
    + rewrite (IH arr1 arr H). unfold thalf_step in E. cbn [bind] in E.
      now apply setitem_length in E.
    + rewrite thalf_fold_err in H. discriminate.
Qed.

Lemma i_thalf_loop_length (df : DataFrame) (n : nat) (arr : list Q) :
  i_thalf_loop df n = Ok arr -> length arr = n.
Proof.
  intro H. unfold i_thalf_loop in H. apply thalf_fold_length in H.
  now rewrite repeat_length in H.
Qed.

Lemma normalise_length (agg : Q -> list Q -> Q) (s : list Q) :
  length (normalise agg s) = length s.
Proof. destruct s; simpl; [reflexivity|now rewrite length_map]. Qed.

(** X4.  A table returned by [sweep_summary] is well formed: its index is
    the list of the sweeps that have a line in the window, in strictly
    increasing order, and every column has one cell for each sweep of the
    index. *)
Theorem sweep_summary_well_formed (df : DataFrame) (w : window) (param : string)
        (s : SummaryDf) :
  sweep_summary df w param = Ok (Some s) ->
  s_index s = sweeps_in_window df w
  /\ StronglySorted Z.lt (s_index s)
  /\ forall name col, In (name, col) (s_columns s) ->
                      length col = length (s_index s).
Proof.
  intro H.
  assert (Hidx : s_index s = sweeps_in_window df w).
  { destruct (sweep_summary_shape df w param s H) as [-> _]. apply groupby_names. }
  split; [exact Hidx|]. split.
  { rewrite Hidx. apply group_keys_sorted. }
  rewrite Hidx, <- groups_in_window_length.
  unfold sweep_summary in H.
  destruct (i_thalf_loop df _) as [arr|e] eqn:Eloop; cbn [bind] in H; [|discriminate].
  apply i_thalf_loop_length in Eloop.
  destruct (String.eqb param "None"); [discriminate|].
  destruct (String.eqb param "Mean"); [|destruct (String.eqb param "Min")];
    injection H as <-; intros name col Hin; cbn [s_columns] in Hin;
    repeat (destruct Hin as [Hin|Hin];
            [injection Hin as _ <-;
             unfold pressure_column;
             repeat rewrite ?length_map, ?normalise_length, ?length_combine;
             try rewrite Eloop; try apply Nat.min_id; reflexivity|]);
    destruct Hin.
Qed.

Lemma sweep_summary_well_formed_witness :
  exists s, sweep_summary two_sweeps (0, 100) "Min" = Ok (Some s)
            /\ s_index s = sweeps_in_window two_sweeps (0, 100)
            /\ StronglySorted Z.lt (s_index s)
            /\ forall name col, In (name, col) (s_columns s) ->
                                length col = length (s_index s).
Proof.
  eexists. split; [reflexivity|].
  apply (sweep_summary_well_formed two_sweeps (0, 100) "Min"). reflexivity.
Defined.

Lemma array_index_empty (j : Z) : array_index 0 j = Err IndexError.
Proof.
  unfold array_index. simpl.
  destruct (0 <=? j)%Z eqn:E1, (j <? 0)%Z eqn:E2; simpl; try reflexivity.
  apply Z.leb_le in E1. apply Z.ltb_lt in E2. lia.
Qed.

Lemma groupby_nonempty (df : DataFrame) : df <> [] -> groupby_sweep df <> [].
Proof.
  destruct df as [|r t]; [congruence|]. intros _ E.
  destruct (sweep_has_group (r :: t) r (or_introl eq_refl)) as (g & Hg & _).
  rewrite E in Hg. exact Hg.
Qed.

Lemma query_window_reversed (df : DataFrame) (w : window) :
  snd w <= fst w -> query_window w df = [].
Proof.
  intro H. unfold query_window.
  induction df as [|r t IH]; simpl; [reflexivity|].
  destruct (in_window w r) eqn:E; [|exact IH].
  apply in_window_half_open in E. destruct E as [E1 E2].
  exfalso. apply (Qlt_irrefl (fst w)).
  eapply Qle_lt_trans; [exact E1|]. eapply Qlt_le_trans; eassumption.
Qed.

(** X5.  When the window selects no line of a table that is not empty (in
    particular when its end is not after its start), [sweep_summary]
    raises [IndexError] for every [param], ['None'] included: [i_thalf] has
    no cell for the first sweep. *)
Theorem sweep_summary_empty_window (df : DataFrame) (w : window) :
  (snd w <= fst w -> query_window w df = [])
  /\ (query_window w df = [] -> df <> [] ->
      forall param, sweep_summary df w param = Err IndexError).
Proof.
  split; [apply query_window_reversed|].
  intros Hq Hne param. unfold sweep_summary. rewrite Hq.
  change (groupby_sweep []) with (@nil group). cbn [length].
  unfold i_thalf_loop.
  destruct (groupby_sweep df) as [|g gs] eqn:E;
    [exfalso; now apply (groupby_nonempty df Hne)|].
  cbn [fold_left repeat]. unfold thalf_step at 2. cbn [bind].
  unfold setitem. cbn [length]. rewrite array_index_empty. cbn [bind].
  now rewrite thalf_fold_err.
Qed.

Lemma sweep_summary_empty_window_witness :
  sweep_summary two_sweeps (300, 300) "None" = Err IndexError.
Proof.
  destruct (sweep_summary_empty_window two_sweeps (300, 300)) as [Hrev Herr].
  apply Herr; [apply Hrev; discriminate|discriminate].
Defined.

Lemma fdiv_finite (x m : Q) : ~ m == 0 -> fdiv x m = Fin (x / m).
Proof.
  intro H. unfold fdiv. destruct (Qeq_bool m 0) eqn:E; [|reflexivity].
  apply Qeq_bool_iff in E. contradiction.
Qed.

Lemma fdiv_by_zero (x m : Q) : m == 0 -> forall q, fdiv x m <> Fin q.
Proof.
  intros H q. unfold fdiv. apply Qeq_bool_iff in H. rewrite H.
  destruct (Qeq_bool x 0); [discriminate|].
  destruct (Qlt_bool 0 x); discriminate.
Qed.

(** The series [s / max(s)] when the greatest value is positive: no cell
    is above 1 and the cell of the greatest value is 1. *)
Lemma normalise_max_positive (h : Q) (t : list Q) :
  0 < list_max h t ->
  Forall (finite_cell (fun q => q <= 1)) (normalise list_max (h :: t))
  /\ Exists (finite_cell (fun q => q == 1)) (normalise list_max (h :: t)).
Proof.
  intro Hpos. destruct (list_max_greatest h t) as [Hin Hall].
  assert (Hnz : ~ list_max h t == 0).
  { intro E. rewrite E in Hpos. exact (Qlt_irrefl _ Hpos). }
  unfold normalise. split.
  - apply Forall_forall. intros c Hc. apply in_map_iff in Hc.
    destruct Hc as (x & <- & Hx). exists (x / list_max h t).
    split; [now apply fdiv_finite|].
    apply Qle_shift_div_r; [exact Hpos|].
    rewrite Qmult_1_l. rewrite Forall_forall in Hall. now apply Hall.
  - apply Exists_exists. exists (fdiv (list_max h t) (list_max h t)).
    split; [exact (in_map (fun x => fdiv x (list_max h t)) _ _ Hin)|].
    exists (list_max h t / list_max h t).
    split; [now apply fdiv_finite|]. field. exact Hnz.
Qed.

(** X6.  In the table of the maxima, when the greatest [max_i] is positive
    every cell of [max_norm_i] is a finite value at most 1 and one cell is
    1; when the greatest [max_i] is zero no cell of [max_norm_i] is
    finite (the division by zero gives [nan] or an infinity). *)
Theorem sweep_summary_max_norm (df : DataFrame) (w : window) (s : SummaryDf) :
  sweep_summary df w "Max" = Ok (Some s) ->
  exists ms ns,
    column "max_i" (s_columns s) = Some (map Fin ms)
    /\ column "max_norm_i" (s_columns s) = Some ns
    /\ length ns = length ms
    /\ forall h t, ms = h :: t ->
         (0 < list_max h t ->
          Forall (finite_cell (fun q => q <= 1)) ns
          /\ Exists (finite_cell (fun q => q == 1)) ns)
         /\ (list_max h t == 0 -> forall c q, In c ns -> c <> Fin q).
Proof.
  unfold sweep_summary.
  destruct (i_thalf_loop df _) as [arr|e]; cbn [bind]; [|discriminate].
  cbn [String.eqb Ascii.eqb Bool.eqb]. intro H. injection H as <-.
  eexists. eexists. split; [reflexivity|]. split; [reflexivity|].
  split; [apply normalise_length|].
  intros h t ->. split.
  - apply normalise_max_positive.
  - intros Hz c q Hc. unfold normalise in Hc. apply in_map_iff in Hc.
    destruct Hc as (x & <- & _). now apply fdiv_by_zero.
Qed.

Lemma sweep_summary_max_norm_witness :
  exists s ms ns,
    sweep_summary suction (0, 400) "Max" = Ok (Some s)
    /\ column "max_i" (s_columns s) = Some (map Fin ms)
    /\ column "max_norm_i" (s_columns s) = Some ns
    /\ length ns = length ms
    /\ forall h t, ms = h :: t ->
         (0 < list_max h t ->
          Forall (finite_cell (fun q => q <= 1)) ns
          /\ Exists (finite_cell (fun q => q == 1)) ns)
         /\ (list_max h t == 0 -> forall c q, In c ns -> c <> Fin q).
Proof.
  assert (Hrun : exists s, sweep_summary suction (0, 400) "Max" = Ok (Some s))
    by (eexists; reflexivity).
  destruct Hrun as (s & Hrun).
  destruct (sweep_summary_max_norm suction (0, 400) s Hrun) as (ms & ns & H).
  exists s, ms, ns. split; [exact Hrun|exact H].
Defined.

(** ** isolate_opening and the summaries *)

Lemma isolate_opening_window_rows (df : DataFrame) (n : Z) (w : window) :
  isolate_opening df n w = window_rows df w n.
Proof.
  unfold isolate_opening, query_window, rows_of_sweep. apply filter_twice.
Qed.

(** X7.  The entry of [max_i] for a sweep in the table of the maxima is
    read on the lines that [isolate_opening] returns for that sweep and
    the same window: there is no entry when [isolate_opening] returns an
    empty table, and otherwise the entry is one of the values of [i] of
    these lines and none of them is greater. *)
Theorem max_i_of_isolated_opening (df : DataFrame) (w : window) (s : SummaryDf)
        (n : Z) :
  sweep_summary df w "Max" = Ok (Some s) ->
  (isolate_opening df n w = [] -> summary_cell s "max_i" n = None)
  /\ (isolate_opening df n w <> [] ->
      exists m, summary_cell s "max_i" n = Some (Fin m)
                /\ In m (map c_i (isolate_opening df n w))
                /\ Forall (fun x => x <= m) (map c_i (isolate_opening df n w))).
Proof.
  intro H.
  assert (Hcell : summary_cell s "max_i" n
                  = option_map Fin (window_stat list_max c_i df w n)).
  { unfold sweep_summary in H.
    destruct (i_thalf_loop df _) as [arr|e]; cbn [bind] in H; [|discriminate].
    cbn [String.eqb Ascii.eqb Bool.eqb] in H. injection H as <-.
    unfold summary_cell.
    cbn [s_columns s_index column String.eqb Ascii.eqb Bool.eqb].
    rewrite map_map. apply (cell_at_window list_max c_i Fin). }
  rewrite Hcell, isolate_opening_window_rows. unfold window_stat.
  destruct (window_rows df w n) as [|r l]; cbn [map].
  - split; [reflexivity|congruence].
  - split; [discriminate|]. intros _.
    exists (list_max (c_i r) (map c_i l)). split; [reflexivity|].
    apply list_max_greatest.
Qed.

Lemma max_i_of_isolated_opening_witness :
  exists s m,
    sweep_summary two_sweeps (0, 300) "Max" = Ok (Some s)
    /\ summary_cell s "max_i" 2 = Some (Fin m)
    /\ In m (map c_i (isolate_opening two_sweeps 2 (0, 300)))
    /\ Forall (fun x => x <= m) (map c_i (isolate_opening two_sweeps 2 (0, 300))).
Proof.
  assert (Hrun : exists s, sweep_summary two_sweeps (0, 300) "Max" = Ok (Some s))
    by (eexists; reflexivity).
  destruct Hrun as (s & Hrun).
  destruct (max_i_of_isolated_opening two_sweeps (0, 300) s 2 Hrun) as [_ H].
  destruct H as (m & Hm); [discriminate|].
  exists s, m. split; [exact Hrun|exact Hm].
Defined.

(** ** The window in the three functions *)

Lemma baseline_subtract_key_error (df : DataFrame) (w : window) :
  every_sweep_in_window df w = false -> baseline_subtract df w = Err KeyError.
Proof.
  intro H. apply forallb_false in H. destruct H as (r & Hr & Hnone).
  unfold baseline_subtract, iblsub.
  rewrite (mapM_first_error _ _ KeyError); [reflexivity| |].
  - intros g e _ Hg.
    destruct (series_get (baselines df w) (g_name g)) as [b|e'] eqn:E;
      cbn [bind] in Hg; [discriminate|].
    injection Hg as <-. now apply (series_get_error _ _ _ E).
  - destruct (sweep_has_group df r Hr) as (g & Hg & Hn).
    exists g. split; [exact Hg|].
    rewrite Hn, baselines_window.
    destruct (window_rows df w (c_sweep r)) as [|r' l] eqn:E; [reflexivity|].
    exfalso.
    assert (Hin : In r' (window_rows df w (c_sweep r))) by (rewrite E; now left).
    unfold window_rows in Hin. apply filter_In in Hin. destruct Hin as [Hin Hc].
    assert (Hex : existsb (fun x => (c_sweep x =? c_sweep r)%Z && in_window w x) df = true).
    { apply existsb_exists. now exists r'. }
    congruence.
Qed.

Lemma every_sweep_half_open (df : DataFrame) (w : window) :
  every_sweep_in_window df w = true
  <-> forall r, In r df ->
        exists r', In r' df /\ c_sweep r' = c_sweep r /\ half_open w r'.
Proof.
  unfold every_sweep_in_window. rewrite forallb_forall. split; intros H r Hr.
  - specialize (H r Hr). apply existsb_exists in H.
    destruct H as (r' & Hr' & Hc). apply andb_true_iff in Hc.
    destruct Hc as [Hs Hw]. apply Z.eqb_eq in Hs.
    apply in_window_half_open in Hw. now exists r'.
  - destruct (H r Hr) as (r' & Hr' & Hs & Hw). apply existsb_exists.
    exists r'. split; [exact Hr'|]. apply andb_true_iff. split.
    + now apply Z.eqb_eq.
    + now apply in_window_half_open.
Qed.

(** The cell of the statistic of a sweep is the statistic of [i] over the
    lines of the sweep inside the window. *)
Lemma sweep_summary_stat (df : DataFrame) (w : window) (param : string)
      (s : SummaryDf) (k : Z) :
  sweep_summary df w param = Ok (Some s) ->
  summary_cell s (stat_name param) k
  = option_map Fin (window_stat (stat_agg param) c_i df w k).
Proof.
  unfold sweep_summary, stat_name, stat_agg.
  destruct (i_thalf_loop df _) as [arr|e]; cbn [bind]; [|discriminate].
  destruct (String.eqb param "None"); [discriminate|].
  destruct (String.eqb param "Mean"); [|destruct (String.eqb param "Min")];
    intro H; injection H as <-; unfold summary_cell;
    cbn [s_columns s_index column String.eqb Ascii.eqb Bool.eqb];
    rewrite map_map.
  - apply (cell_at_window mean c_i Fin).
  - apply (cell_at_window list_min c_i Fin).
  - apply (cell_at_window list_max c_i Fin).
Qed.

(** C8 (as amended).  The three functions select by the same half-open
    window, the lines with [window[0] <= ti < window[1]]:
    [baseline_subtract] raises [KeyError] exactly when some sweep has no
    such line and otherwise subtracts the mean of [i] over these lines of
    the sweep; a table of [sweep_summary] has one line for each sweep that
    has such a line, and its median and its statistic are taken over these
    lines; [isolate_opening] returns these lines of the sweep.  A sample at
    the end of the window is never selected; a sample at its start is
    selected when the start is before the end. *)
Theorem windows_half_open (df : DataFrame) (w : window) :
  (forall k r, In r (window_rows df w k)
               <-> In r df /\ c_sweep r = k /\ half_open w r)
  /\ (every_sweep_in_window df w = true
      <-> forall r, In r df ->
            exists r', In r' df /\ c_sweep r' = c_sweep r /\ half_open w r')
  /\ (every_sweep_in_window df w = false -> baseline_subtract df w = Err KeyError)
  /\ (every_sweep_in_window df w = true ->
      exists df',
        baseline_subtract df w = Ok df'
        /\ map c_i df'
           = map (fun r => c_i r - window_mean df w (c_sweep r)) (sweep_sorted df))
  /\ (forall param s, sweep_summary df w param = Ok (Some s) ->
        forall k,
          (In k (s_index s)
           <-> exists r, In r df /\ c_sweep r = k /\ half_open w r)
          /\ summary_cell s "pressure" k
             = option_map (fun m => Fin (Qabs m)) (window_stat median c_p df w k)
          /\ summary_cell s (stat_name param) k
             = option_map Fin (window_stat (stat_agg param) c_i df w k))
  /\ (forall n, isolate_opening df n w = window_rows df w n)
  /\ (forall n r, c_ti r == snd w -> ~ In r (isolate_opening df n w))
  /\ (forall r, In r df -> c_ti r == fst w -> fst w < snd w ->
                In r (isolate_opening df (c_sweep r) w)).
Proof.
  split; [apply window_rows_In|].
  split; [apply every_sweep_half_open|].
  split; [apply baseline_subtract_key_error|].
  split; [|split; [|split; [|split]]].
  - intro H. rewrite (baseline_subtract_values df w H).
    destruct (assign_i_stored df
                (map (fun r => c_i r - window_mean df w (c_sweep r)) (sweep_sorted df)))
      as (df' & Hrun & _ & Hvals).
    { rewrite length_map. apply Permutation_length, sweep_sorted_perm. }
    now exists df'.
  - intros param s H k. split; [|split].
    + destruct (sweep_summary_shape df w param s H) as [-> _].
      rewrite groupby_names. apply sweeps_in_window_In.
    + destruct (sweep_summary_shape df w param s H) as [Hidx Hcol].
      unfold summary_cell. rewrite Hcol, Hidx.
      apply (cell_at_window median c_p (fun m => Fin (Qabs m))).
    + now apply sweep_summary_stat.
  - intro n. apply isolate_opening_window_rows.
  - intros n r Ht Hin. rewrite isolate_opening_window_rows in Hin.
    apply window_rows_In in Hin. destruct Hin as (_ & _ & _ & Hlt).
    rewrite Ht in Hlt. exact (Qlt_irrefl _ Hlt).
  - intros r Hr Ht Hw. rewrite isolate_opening_window_rows. apply window_rows_In.
    split; [exact Hr|]. split; [reflexivity|]. unfold half_open. rewrite Ht.
    split; [apply Qle_refl|exact Hw].
Qed.

Lemma windows_half_open_witness :
  isolate_opening boundary_table 1 (0, 250) = [sample 1 0 3 (-10)]
  /\ (exists df',
        baseline_subtract boundary_table (0, 250) = Ok df'
        /\ map c_i df'
           = map (fun r => c_i r - window_mean boundary_table (0, 250) (c_sweep r))
                 (sweep_sorted boundary_table))
  /\ window_mean boundary_table (0, 250) 1 == 3
  /\ (exists s,
        sweep_summary boundary_table (0, 250) "Max" = Ok (Some s)
        /\ s_index s = [1%Z]
        /\ summary_cell s "max_i" 1 = Some (Fin 3))
  /\ In (sample 1 0 3 (-10)) (isolate_opening boundary_table 1 (0, 250))
  /\ ~ In (sample 1 250 9 (-10)) (isolate_opening boundary_table 1 (0, 250)).
Proof.
  destruct (windows_half_open boundary_table (0, 250))
    as (_ & _ & _ & Hbase & Hsum & Hiso & Hend & Hstart).
  split; [exact (Hiso 1%Z)|].
  split; [apply Hbase; reflexivity|].
  split; [reflexivity|].
  split.
  - assert (Hrun : exists s, sweep_summary boundary_table (0, 250) "Max" = Ok (Some s)
                             /\ s_index s = [1%Z])
      by (eexists; split; reflexivity).
    destruct Hrun as (s & Hrun & Hidx). exists s.
    split; [exact Hrun|]. split; [exact Hidx|].
    exact (proj2 (proj2 (Hsum "Max"%string s Hrun 1%Z))).
  - split.
    + apply (Hstart (sample 1 0 3 (-10))); [now left|reflexivity|reflexivity].
    + apply Hend. reflexivity.
Defined.

(** C8 (as stated) fails for a window that is empty: the sample lies
    exactly at the start of the window [(250, 250)], and none of the
    three functions selects it. *)
Lemma window_start_excluded :
  c_ti (sample 1 250 5 1) == fst ((250, 250) : window)
  /\ isolate_opening [sample 1 250 5 1] 1 (250, 250) = []
  /\ baseline_subtract [sample 1 250 5 1] (250, 250) = Err KeyError
  /\ sweep_summary [sample 1 250 5 1] (250, 250) "Max" = Err IndexError.
Proof. repeat split. Qed.

(** ** load_file: failures and the order of the sweeps *)

Lemma sweep_labels_length (n : Z) (len : nat) (labels : list Z) :
  sweep_labels n len = Ok labels ->
  (0 < n)%Z ->
  Z.of_nat (length labels) = (n * (Z.of_nat len / n))%Z.
Proof.
  unfold sweep_labels. destruct (n =? 0)%Z; [discriminate|].
  intros H Hn. injection H as <-.
  rewrite length_blocks, length_seq, Nat2Z.inj_mul, !Z2Nat.id.
  - now rewrite Z.quot_div_nonneg by lia.
  - rewrite Z.quot_div_nonneg by lia. apply Z.div_pos; lia.
  - lia.
Qed.

(** X8.  [load_file] fails in these ways: with [IndexError] when every
    line of the file holds a lowercase letter; with [ZeroDivisionError]
    when the file has fewer than three such lines (the number of sweeps is
    then 0) and the other lines give a table of numbers; with [ValueError]
    when the number of lines of that table is not a multiple of the number
    of sweeps. *)
Theorem load_file_failures (parse : string -> option Q) (content : string) :
  (data_lines (rawFile_of content) = [] ->
   load_file parse content = Err IndexError)
  /\ (forall t, numeric_table parse (rawFile_of content) = Ok t ->
        ((header_count (rawFile_of content) <= 2)%nat ->
         load_file parse content = Err ZeroDivisionError)
        /\ ((0 < nSweeps_of (rawFile_of content))%Z ->
            (Z.of_nat (length t) mod nSweeps_of (rawFile_of content) <> 0)%Z ->
            load_file parse content = Err ValueError)).
Proof.
  split.
  - intro H. unfold load_file, numeric_table.
    rewrite processedFile_data_lines, H. reflexivity.
  - intros t Ht. split.
    + intro Hh. unfold load_file. rewrite Ht. cbn [bind].
      unfold with_sweeps, sweep_labels.
      replace (nSweeps_of (rawFile_of content)) with 0%Z; [reflexivity|].
      rewrite nSweeps_header_count.
      assert (Hcases : header_count (rawFile_of content) = 0%nat
                       \/ header_count (rawFile_of content) = 1%nat
                       \/ header_count (rawFile_of content) = 2%nat) by lia.
      destruct Hcases as [-> | [-> | ->]]; reflexivity.
    + intros Hn Hmod. unfold load_file. rewrite Ht. cbn [bind].
      unfold with_sweeps.
      destruct (sweep_labels (nSweeps_of (rawFile_of content)) (length t))
        as [labels|e] eqn:El.
      * cbn [bind].
        destruct (length labels =? length t)%nat eqn:E; [|reflexivity].
        exfalso. apply Nat.eqb_eq in E.
        pose proof (sweep_labels_length _ _ _ El Hn) as Hlen.
        rewrite E in Hlen. apply Hmod.
        rewrite Z.mod_eq by lia. lia.
      * unfold sweep_labels in El.
        destruct (nSweeps_of (rawFile_of content) =? 0)%Z eqn:E0;
          [apply Z.eqb_eq in E0; lia|discriminate].
Qed.

Lemma load_file_failures_witness :
  load_file read_decimal "Index, Time"%string = Err IndexError
  /\ load_file read_decimal "0, 1, 2, 3, 4"%string = Err ZeroDivisionError.
Proof.
  split.
  - apply (proj1 (load_file_failures read_decimal "Index, Time"%string)).
    reflexivity.
  - destruct (load_file_failures read_decimal "0, 1, 2, 3, 4"%string) as [_ H].
    assert (Ht : exists t,
               numeric_table read_decimal (rawFile_of "0, 1, 2, 3, 4"%string) = Ok t)
      by (eexists; reflexivity).
    destruct Ht as (t & Ht). destruct (H t Ht) as [Hz _].
    apply Hz. vm_compute. lia.
Defined.

Lemma blocks_ascending (m : nat) : forall n a,
  ascending (flat_map (fun k => repeat (Z.of_nat k + 1)%Z m) (seq a n)) = true.
Proof.
  induction n as [|n IH]; intro a; [reflexivity|].
  cbn [seq flat_map]. apply ascending_app.
  - apply (ascending_const (Z.of_nat a + 1)%Z). intros x Hx.
    now apply repeat_spec in Hx.
  - apply IH.
  - intros x y Hx Hy. apply repeat_spec in Hx. subst x.
    apply in_flat_map in Hy. destruct Hy as (k & Hk & Hy).
    apply repeat_spec in Hy. subst y. apply in_seq in Hk. lia.
Qed.

Lemma sweep_labels_range (n : Z) (len : nat) (labels : list Z) :
  sweep_labels n len = Ok labels ->
  ascending labels = true
  /\ Forall (fun k => (1 <= k <= n)%Z) labels.
Proof.
  unfold sweep_labels. destruct (n =? 0)%Z; [discriminate|].
  intro H. injection H as <-. split; [apply blocks_ascending|].
  apply Forall_forall. intros x Hx.
  apply in_flat_map in Hx. destruct Hx as (k & Hk & Hx).
  apply repeat_spec in Hx. subst x. apply in_seq in Hk. lia.
Qed.

(** The sweeps of a table of [load_file] are the labels made by
    [sweep_labels]. *)
Lemma load_file_labels (parse : string -> option Q) (content : string)
      (df : DataFrame) :
  load_file parse content = Ok df ->
  exists t labels,
    numeric_table parse (rawFile_of content) = Ok t
    /\ sweep_labels (nSweeps_of (rawFile_of content)) (length t) = Ok labels
    /\ map c_sweep df = labels.
Proof.
  unfold load_file.
  destruct (numeric_table parse (rawFile_of content)) as [t|e] eqn:Ht;
    cbn [bind]; [|discriminate].
  unfold with_sweeps.
  destruct (sweep_labels (nSweeps_of (rawFile_of content)) (length t))
    as [labels|e] eqn:El; cbn [bind]; [|discriminate].
  destruct (length labels =? length t)%nat eqn:Elen; [|discriminate].
  apply Nat.eqb_eq in Elen.
  destruct (lines_of_table t labels Elen (table_widths parse _ t Ht))
    as (df0 & Hrun & Hsw & _).
  rewrite Hrun. cbn [bind]. intro H. injection H as <-.
  exists t, labels. split; [reflexivity|]. split; [exact El|].
  rewrite map_map. exact Hsw.
Qed.

(** X9.  In every table returned by [load_file] the sweeps never decrease
    down the lines and lie between 1 and the number of sweeps; such a
    table can therefore be given to [baseline_subtract], which corrects
    every line with the mean of its own sweep as soon as every sweep has
    a line in the window. *)
Theorem load_file_then_baseline (parse : string -> option Q) (content : string)
        (df : DataFrame) :
  load_file parse content = Ok df ->
  sweeps_ascending df = true
  /\ Forall (fun r => (1 <= c_sweep r <= nSweeps_of (rawFile_of content))%Z) df
  /\ forall w, every_sweep_in_window df w = true ->
               baseline_subtract df w = Ok (baseline_subtracted df w).
Proof.
  intro H. destruct (load_file_labels parse content df H) as (t & labels & _ & Hl & Hsw).
  destruct (sweep_labels_range _ _ _ Hl) as [Hasc Hrange].
  assert (Hsorted : sweeps_ascending df = true).
  { unfold sweeps_ascending. now rewrite Hsw. }
  split; [exact Hsorted|]. split.
  - rewrite <- Hsw in Hrange. apply Forall_forall. intros r Hr.
    rewrite Forall_forall in Hrange. apply Hrange. now apply in_map.
  - intros w Hw. now apply baseline_subtract_sorted.
Qed.

Lemma load_file_then_baseline_witness :
  exists df,
    load_file read_decimal two_sweep_file = Ok df
    /\ sweeps_ascending df = true
    /\ Forall (fun r => (1 <= c_sweep r
                         <= nSweeps_of (rawFile_of two_sweep_file))%Z) df
    /\ forall w, every_sweep_in_window df w = true ->
                 baseline_subtract df w = Ok (baseline_subtracted df w).
Proof.
  assert (Hrun : exists df, load_file read_decimal two_sweep_file = Ok df)
    by (eexists; reflexivity).
  destruct Hrun as (df & Hrun). exists df. split; [exact Hrun|].
  exact (load_file_then_baseline read_decimal two_sweep_file df Hrun).
Defined.

(** ** The text of a file *)

Lemma split_nonempty (sep : ascii) (s : string) : split sep s <> [].
Proof.
  destruct s as [|c t]; simpl; [discriminate|].
  destruct (Ascii.eqb c sep); [discriminate|].
  destruct (split sep t); discriminate.
Qed.

Lemma concat_push (sep : string) (c : ascii) (h : string) (r : list string) :
  String.concat sep (String c h :: r) = String c (String.concat sep (h :: r)).
Proof. destruct r; reflexivity. Qed.

(** Joining the pieces of [split] with the separator gives the text
    back. *)
Lemma split_join (sep : ascii) (s : string) :
  String.concat (String sep EmptyString) (split sep s) = s.
Proof.
  induction s as [|c t IH]; [reflexivity|].
  cbn [split]. destruct (Ascii.eqb c sep) eqn:E.
  - apply Ascii.eqb_eq in E. subst c.
    destruct (split sep t) as [|h r] eqn:Es; [now apply split_nonempty in Es|].
    change (String.concat (String sep EmptyString) (EmptyString :: h :: r))
      with (String sep (String.concat (String sep EmptyString) (h :: r))).
    now rewrite IH.
  - destruct (split sep t) as [|h r] eqn:Es; [now apply split_nonempty in Es|].
    now rewrite concat_push, IH.
Qed.

Lemma split_no_separator (sep : ascii) (s : string) (f : string) :
  In f (split sep s) -> has_char sep f = false.
Proof.
  revert f. induction s as [|c t IH]; intros f Hf.
  - destruct Hf as [<-|[]]. reflexivity.
  - cbn [split] in Hf. destruct (Ascii.eqb c sep) eqn:E.
    + destruct Hf as [<-|Hf]; [reflexivity|now apply IH].
    + destruct (split sep t) as [|h r] eqn:Es; [now apply split_nonempty in Es|].
      destruct Hf as [<-|Hf].
      * cbn [has_char]. rewrite E. apply IH. now left.
      * apply IH. now right.
Qed.

Lemma split_keeps_absent (c sep : ascii) (s : string) (f : string) :
  has_char c s = false -> In f (split sep s) -> has_char c f = false.
Proof.
  revert f. induction s as [|a t IH]; intros f Hs Hf.
  - destruct Hf as [<-|[]]. reflexivity.
  - cbn [has_char] in Hs. apply orb_false_iff in Hs. destruct Hs as [Ha Ht].
    cbn [split] in Hf. destruct (Ascii.eqb a sep).
    + destruct Hf as [<-|Hf]; [reflexivity|now apply IH].
    + destruct (split sep t) as [|h r] eqn:Es; [now apply split_nonempty in Es|].
      destruct Hf as [<-|Hf].
      * cbn [has_char]. rewrite Ha. apply IH; [exact Ht|now left].
      * apply IH; [exact Ht|now right].
Qed.

Lemma remove_spaces_clean (s : string) : has_char " " (remove_spaces s) = false.
Proof.
  induction s as [|c t IH]; [reflexivity|].
  cbn [remove_spaces]. destruct (Ascii.eqb c " ") eqn:E; [exact IH|].
  cbn [has_char]. now rewrite E.
Qed.

(** X10.  The text of a file is cut without loss: the lines of [rawFile]
    joined by line ends are the text without its leading and trailing
    blanks, and no line holds a line end; the fields of a line joined by
    commas are the line without its blanks, there is always a field, and
    no field holds a comma or a space. *)
Theorem text_round_trip (content line : string) :
  String.concat (String newline EmptyString) (rawFile_of content) = strip content
  /\ (forall l, In l (rawFile_of content) -> has_char newline l = false)
  /\ String.concat "," (fields line) = remove_spaces (strip line)
  /\ fields line <> []
  /\ (forall f, In f (fields line) ->
                has_char "," f = false /\ has_char " " f = false).
Proof.
  split; [apply split_join|].
  split; [intros l Hl; now apply (split_no_separator newline (strip content))|].
  split; [apply (split_join ",")|].
  split; [apply split_nonempty|].
  intros f Hf. split.
  - now apply (split_no_separator "," (remove_spaces (strip line))).
  - apply (split_keeps_absent " " "," (remove_spaces (strip line)));
      [apply remove_spaces_clean|exact Hf].
Qed.

(** ** ngauss_guesses: edges *)

(** X12.  The edges of [ngauss_guesses]: an empty [y] raises [ValueError];
    an [x] without a cell at the position of the greatest value of [y]
    raises [IndexError]; and for [nGauss <= 1] (zero and negative numbers
    included) the loop does nothing and each array holds its first guess
    alone. *)
Theorem ngauss_guesses_edges (x y : list Q) (nGauss : Z) :
  (y = [] -> ngauss_guesses x y nGauss = Err ValueError)
  /\ (forall k, argmax y = Ok k -> (length x <= k)%nat ->
                ngauss_guesses x y nGauss = Err IndexError)
  /\ (forall k xk, argmax y = Ok k -> nth_error x k = Some xk ->
                   (nGauss <= 1)%Z ->
                   ngauss_guesses x y nGauss = Ok ([1], [xk], [1 # 2])).
Proof.
  split; [|split].
  - intros ->. reflexivity.
  - intros k Hk Hlen. unfold ngauss_guesses. rewrite Hk. cbn [bind].
    unfold getitem. apply nth_error_None in Hlen. now rewrite Hlen.
  - intros k xk Hk Hx Hn. unfold ngauss_guesses. rewrite Hk. cbn [bind].
    unfold getitem at 1. rewrite Hx. cbn [bind].
    replace (Z.to_nat (nGauss - 1)) with 0%nat by lia. reflexivity.
Qed.

Lemma ngauss_guesses_edges_witness :
  ngauss_guesses [7; 8] [3; 9] (-2) = Ok ([1], [8], [1 # 2]).
Proof.
  destruct (ngauss_guesses_edges [7; 8] [3; 9] (-2)) as (_ & _ & H).
  apply (H 1%nat 8); [reflexivity|reflexivity|lia].
Defined.

(** ** The curves *)

Section Curves.

Local Open Scope R_scope.

(** X14.  The components that [frequency_histogram] draws add up to the
    fitted curve: with the nine fitted parameters in the order of the
    arguments of [triple_gauss_fit], the curves of the positions
    [0, 3, 6], [1, 4, 7] and [2, 5, 8] sum to [triple_gauss_fit]; with six
    parameters the curves of the positions [0, 2, 4] and [1, 3, 5] sum to
    [double_gauss_fit]. *)
Theorem gauss_components_sum (x : R) :
  (forall a1 a2 a3 m1 m2 m3 s1 s2 s3,
     let popt := [a1; a2; a3; m1; m2; m3; s1; s2; s3] in
     gauss_component popt 0 3 6 x + gauss_component popt 1 4 7 x
     + gauss_component popt 2 5 8 x
     = triple_gauss_fit x a1 a2 a3 m1 m2 m3 s1 s2 s3)
  /\ (forall a1 a2 m1 m2 s1 s2,
        let popt := [a1; a2; m1; m2; s1; s2] in
        gauss_component popt 0 2 4 x + gauss_component popt 1 3 5 x
        = double_gauss_fit x a1 a2 m1 m2 s1 s2).
Proof.
  split; intros; unfold gauss_component, single_gauss_fit, triple_gauss_fit,
    double_gauss_fit, popt; cbn [nth]; reflexivity.
Qed.






End Curves.

(** ** add_scalebars *)

Lemma getitem_error (l : list Q) (k : nat) (e : exn) :
  getitem l k = Err e -> e = IndexError.
Proof.
  unfold getitem. destruct (nth_error l k); [discriminate|].
  intro H. now injection H as <-.
Qed.

Lemma dict_get_error (d : dict) (key : string) (e : exn) :
  dict_get d key = Err e -> e = KeyError.
Proof.
  induction d as [|[k vals] t IH]; simpl; intro H.
  - now injection H as <-.
  - destruct (String.eqb k key); [discriminate|now apply IH].
Qed.

Ltac bar_errors H :=
  repeat match type of H with
         | bind (dict_get ?d ?k) _ = Err _ =>
             let E := fresh "E" in
             destruct (dict_get d k) eqn:E; cbn [bind] in H;
             [|injection H as <-; left; now apply (dict_get_error _ _ _ E)]
         | bind (getitem ?l ?k) _ = Err _ =>
             let E := fresh "E" in
             destruct (getitem l k) eqn:E; cbn [bind] in H;
             [|injection H as <-; right; now apply (getitem_error _ _ _ E)]
         end.

Lemma pscale_error (locs : dict) (e : exn) :
  pscale locs = Err e -> e = KeyError \/ e = IndexError.
Proof. unfold pscale. intro H. bar_errors H. discriminate. Qed.

Lemma iscale_error (locs : dict) (e : exn) :
  iscale locs = Err e -> e = KeyError \/ e = IndexError.
Proof. unfold iscale. intro H. bar_errors H. discriminate. Qed.

Lemma tscale_error (locs : dict) (e : exn) :
  tscale locs = Err e -> e = KeyError \/ e = IndexError.
Proof. unfold tscale. intro H. bar_errors H. discriminate. Qed.

(** One step leaves the figure as it is, adds one line to it, or
    raises. *)
Lemma scale_step_cases (locs : dict) (key : string) (bar : dict -> result shape)
      (row : nat) (fig : figure) :
  (forall e, bar locs = Err e -> e = KeyError \/ e = IndexError) ->
  (exists added, scale_step locs key bar row fig = Ok (fig ++ added)
                 /\ (length added <= 1)%nat
                 /\ Forall (fun sr => snd sr = row) added)
  \/ scale_step locs key bar row fig = Err KeyError
  \/ scale_step locs key bar row fig = Err IndexError.
Proof.
  intro Hbar. unfold scale_step.
  destruct (dict_get locs key) as [vals|e] eqn:E; cbn [bind].
  - destruct (negb (all_zero vals)).
    + destruct (bar locs) as [s|e] eqn:Eb; cbn [bind].
      * left. exists [(s, row)]. split; [reflexivity|]. split; [simpl; lia|].
        now constructor.
      * destruct (Hbar e eq_refl) as [-> | ->]; auto.
    + left. exists []. rewrite app_nil_r. split; [reflexivity|].
      split; [simpl; lia|constructor].
  - apply dict_get_error in E. subst e. auto.
Qed.

(** X16.  [add_scalebars] only adds to the figure: whatever [locs] holds,
    the figure it leaves is the figure it was given followed by at most
    three lines, each in row 1 or 2; a missing key never escapes (the
    handler prints its message and the figure is returned), and the only
    exception that can escape is [IndexError]. *)
Theorem add_scalebars_grows (fig : figure) (locs : dict) :
  exists added,
    fst (add_scalebars fig locs) = fig ++ added
    /\ (length added <= 3)%nat
    /\ Forall (fun sr => snd sr = 1%nat \/ snd sr = 2%nat) added
    /\ (snd (add_scalebars fig locs) = Returned
        \/ snd (add_scalebars fig locs) = Printed
        \/ snd (add_scalebars fig locs) = Raised IndexError).
Proof.
  unfold add_scalebars.
  destruct (scale_step_cases locs "p" pscale 1 fig (pscale_error locs))
    as [(a1 & -> & L1 & R1) | [-> | ->]].
  2,3: exists []; rewrite app_nil_r; cbn; repeat split; auto.
  destruct (scale_step_cases locs "i" iscale 2 (fig ++ a1) (iscale_error locs))
    as [(a2 & -> & L2 & R2) | [-> | ->]].
  2,3: exists a1; cbn; repeat split; auto; try lia;
       eapply Forall_impl; [|exact R1]; intros sr ->; auto.
  destruct (scale_step_cases locs "t" tscale 2 ((fig ++ a1) ++ a2) (tscale_error locs))
    as [(a3 & -> & L3 & R3) | [-> | ->]].
  - exists (a1 ++ a2 ++ a3). cbn. rewrite !app_assoc. split; [reflexivity|].
    split; [rewrite !length_app; lia|]. split; [|auto].
    repeat (apply Forall_app; split);
      (eapply Forall_impl; [|eassumption]); intros sr ->; auto.
  - exists (a1 ++ a2). cbn. rewrite !app_assoc. split; [reflexivity|].
    split; [rewrite !length_app; lia|]. split; [|auto].
    apply Forall_app; split;
      (eapply Forall_impl; [|eassumption]); intros sr ->; auto.
  - exists (a1 ++ a2). cbn. rewrite !app_assoc. split; [reflexivity|].
    split; [rewrite !length_app; lia|]. split; [|auto].
    apply Forall_app; split;
      (eapply Forall_impl; [|eassumption]); intros sr ->; auto.
Qed.

(** X17.  When the entries ['p'], ['i'] and ['t'] of [locs] are present
    with two values at least, [add_scalebars] returns normally and adds,
    in this order and only for the entries that are not all zeros: the
    pressure bar in row 1, from [p[0]] to [p[1]] at the time [t[0]]; the
    current bar in row 2, from [i[0]] to [i[1]] at the time [t[0]]; the
    time bar in row 2, from [t[0]] to [t[1]] at the height [i[0]]. *)
Theorem add_scalebars_bars (fig : figure) (locs : dict)
        (p0 p1 i0 i1 t0 t1 : Q) (pr ir tr : list Q) :
  dict_get locs "p" = Ok (p0 :: p1 :: pr) ->
  dict_get locs "i" = Ok (i0 :: i1 :: ir) ->
  dict_get locs "t" = Ok (t0 :: t1 :: tr) ->
  add_scalebars fig locs
  = (fig ++ bar_if (p0 :: p1 :: pr) (mkLine t0 t0 p0 p1) 1
         ++ bar_if (i0 :: i1 :: ir) (mkLine t0 t0 i0 i1) 2
         ++ bar_if (t0 :: t1 :: tr) (mkLine t0 t1 i0 i0) 2,
     Returned).
Proof.
  intros Hp Hi Ht.
  unfold add_scalebars, scale_step, pscale, iscale, tscale, bar_if.
  rewrite Hp, Hi, Ht. cbn [bind getitem nth_error].
  destruct (all_zero (p0 :: p1 :: pr)), (all_zero (i0 :: i1 :: ir)),
    (all_zero (t0 :: t1 :: tr)); cbn [negb bind];
    rewrite ?app_nil_r, <- ?app_assoc; reflexivity.
Qed.

Lemma add_scalebars_bars_witness :
  add_scalebars []
    [("p"%string, [0; -40]); ("i"%string, [0; 0]); ("t"%string, [100; 150])]
  = ([(mkLine 100 100 0 (-40), 1%nat); (mkLine 100 150 0 0, 2%nat)], Returned).
Proof.
  exact (add_scalebars_bars []
           [("p"%string, [0; -40]); ("i"%string, [0; 0]); ("t"%string, [100; 150])]
           0 (-40) 0 0 100 150 [] [] [] eq_refl eq_refl eq_refl).
Defined.

(** X18.  The edges of [add_scalebars]: without an entry ['p'] the figure
    is returned as it was, after the message; an entry ['p'] that is not
    all zeros without an entry ['t'] ends the same way; an entry ['p']
    with a single value other than zero raises [IndexError], which the
    handler does not catch; and an entry without values counts as all
    zeros. *)
Theorem add_scalebars_edges (fig : figure) (locs : dict) :
  (dict_get locs "p" = Err KeyError -> add_scalebars fig locs = (fig, Printed))
  /\ (forall vals, dict_get locs "p" = Ok vals -> all_zero vals = false ->
        dict_get locs "t" = Err KeyError ->
        add_scalebars fig locs = (fig, Printed))
  /\ (forall v t0 tr, dict_get locs "p" = Ok [v] -> Qeq_bool v 0 = false ->
        dict_get locs "t" = Ok (t0 :: tr) ->
        add_scalebars fig locs = (fig, Raised IndexError))
  /\ all_zero [] = true.
Proof.
  split; [|split; [|split]].
  - intro H. unfold add_scalebars, scale_step. now rewrite H.
  - intros vals Hp Hz Ht. unfold add_scalebars, scale_step, pscale.
    rewrite Hp. cbn [bind]. rewrite Hz. cbn [negb]. now rewrite Ht.
  - intros v t0 tr Hp Hz Ht. unfold add_scalebars, scale_step, pscale.
    rewrite Hp. cbn [bind]. unfold all_zero. cbn [forallb]. rewrite Hz.
    cbn [andb negb]. rewrite Ht. reflexivity.
  - reflexivity.
Qed.

Lemma add_scalebars_edges_witness :
  add_scalebars [] [("p"%string, [5]); ("t"%string, [100; 150])]
  = ([], Raised IndexError).
Proof.
  destruct (add_scalebars_edges []
              [("p"%string, [5]); ("t"%string, [100; 150])]) as (_ & _ & H & _).
  apply (H 5 100 [150]); reflexivity.
Defined.
